(** * Black-Scholes pricing model: a shallow embedding and its properties

    The development embeds [black_scholes_model.py] (class [BlackScholes],
    method [calculate_prices]) and the heatmap construction of
    [streamlit.py] ([plot_pnl_heatmap] and the two [np.linspace] ranges).

    Numbers.  A Python [float] / [numpy.float64] is modelled by [pyfloat]:
    a real number, or one of the IEEE special values [+inf], [-inf], [nan].
    Finite arithmetic is exact real arithmetic: rounding, overflow to
    infinity and the sign of zero are not modelled.  The special values
    follow IEEE 754, which is what numpy applies when a [numpy.float64]
    takes part in an operation; between two plain Python floats [/] raises
    [ZeroDivisionError] on a zero divisor, so every value carries its
    [numkind].

    Collaborators.  [numpy.log], [numpy.sqrt], [numpy.exp] are the real
    functions [ln], [sqrt], [exp] on their domains, with numpy's special
    values outside; [scipy.stats.norm.pdf] and [norm.cdf] are the standard
    normal density [phi] and distribution function [Phi], the latter
    defined from the integral of the density. *)

From Stdlib Require Import Reals Lra Lia Arith Wf_nat List Bool.
Import ListNotations.
Open Scope R_scope.

(** ** The standard normal distribution *)

(** The unnormalised density [exp (- t^2 / 2)]. *)
Definition gauss (t : R) : R := exp (- (t * t / 2)).

Lemma gauss_derivable_pt_lim (t : R) : derivable_pt_lim gauss t (- t * gauss t).
Proof.
  unfold gauss.
  replace (- t * exp (- (t * t / 2))) with (exp (- (t * t / 2)) * (- t)) by ring.
  apply (derivable_pt_lim_comp (fun t => - (t * t / 2)) exp).
  - replace (- t) with (- ((1 * t + t * 1) * / 2)) by field.
    apply derivable_pt_lim_opp.
    apply (derivable_pt_lim_scal_right (fun t => t * t) t ((1 * t + t * 1)) (/ 2)).
    apply (derivable_pt_lim_mult id id); apply derivable_pt_lim_id.
  - apply derivable_pt_lim_exp.
Qed.

Lemma gauss_continuity : continuity gauss.
Proof.
  intro t. apply derivable_continuous_pt.
  exists (- t * gauss t). apply gauss_derivable_pt_lim.
Qed.

Lemma gauss_integrable (a b : R) : Riemann_integrable gauss a b.
Proof.
  destruct (Rle_dec a b) as [Hab | Hab].
  - apply continuity_implies_RiemannInt; [exact Hab | intros; apply gauss_continuity].
  - apply RiemannInt_P1, continuity_implies_RiemannInt;
      [lra | intros; apply gauss_continuity].
Qed.

(** [gauss_int x] is the integral of [gauss] from 0 to [x]. *)
Definition gauss_int (x : R) : R := RiemannInt (gauss_integrable 0 x).

(** [scipy.stats.norm.pdf] on a real argument. *)
Definition phi (x : R) : R := gauss x / sqrt (2 * PI).

(** [scipy.stats.norm.cdf] on a real argument:
    [1/2 + integral of phi over [0, x]].  It is the distribution function
    of [phi]: an antiderivative of [phi] ([Phi_derivable_pt_lim]) with
    limits 0 and 1 at infinity ([Phi_limit_0], [Phi_limit_1]). *)
Definition Phi (x : R) : R := 1 / 2 + gauss_int x / sqrt (2 * PI).



(** ** Floating-point values *)

Inductive pyfloat : Type :=
| Fin (r : R)
| PInf
| NInf
| NaN.

(** [by_sign a p n z]: [p] when [a] is positive, [n] when negative, [z] at 0. *)
Definition by_sign {A : Type} (a : R) (p n z : A) : A :=
  if Rlt_dec 0 a then p else if Rlt_dec a 0 then n else z.

Definition fneg (x : pyfloat) : pyfloat :=
  match x with
  | Fin a => Fin (- a)
  | PInf => NInf
  | NInf => PInf
  | NaN => NaN
  end.

Definition fadd (x y : pyfloat) : pyfloat :=
  match x, y with
  | NaN, _ | _, NaN => NaN
  | Fin a, Fin b => Fin (a + b)
  | PInf, NInf | NInf, PInf => NaN
  | PInf, _ | _, PInf => PInf
  | NInf, _ | _, NInf => NInf
  end.

Definition fsub (x y : pyfloat) : pyfloat := fadd x (fneg y).

Definition fmul (x y : pyfloat) : pyfloat :=
  match x, y with
  | NaN, _ | _, NaN => NaN
  | Fin a, Fin b => Fin (a * b)
  | Fin a, PInf | PInf, Fin a => by_sign a PInf NInf NaN
  | Fin a, NInf | NInf, Fin a => by_sign a NInf PInf NaN
  | PInf, PInf | NInf, NInf => PInf
  | PInf, NInf | NInf, PInf => NInf
  end.

(** IEEE division; a zero divisor counts as [+0.0]. *)
Definition fdiv (x y : pyfloat) : pyfloat :=
  match x, y with
  | NaN, _ | _, NaN => NaN
  | Fin a, Fin b => if Req_EM_T b 0 then by_sign a PInf NInf NaN else Fin (a / b)
  | Fin _, PInf | Fin _, NInf => Fin 0
  | PInf, Fin b => if Rlt_dec b 0 then NInf else PInf
  | NInf, Fin b => if Rlt_dec b 0 then PInf else NInf
  | PInf, PInf | PInf, NInf | NInf, PInf | NInf, NInf => NaN
  end.

(** [x ** n] for an integer exponent [n]. *)
Definition fpow (x : pyfloat) (n : nat) : pyfloat :=
  match n with
  | O => Fin 1
  | _ =>
      match x with
      | Fin a => Fin (a ^ n)
      | PInf => PInf
      | NInf => if Nat.even n then PInf else NInf
      | NaN => NaN
      end
  end.

(** [numpy.sqrt], [numpy.log], [numpy.exp]. *)
Definition fsqrt (x : pyfloat) : pyfloat :=
  match x with
  | Fin a => if Rlt_dec a 0 then NaN else Fin (sqrt a)
  | PInf => PInf
  | NInf | NaN => NaN
  end.

Definition flog (x : pyfloat) : pyfloat :=
  match x with
  | Fin a => by_sign a (Fin (ln a)) NaN NInf
  | PInf => PInf
  | NInf | NaN => NaN
  end.

Definition fexp (x : pyfloat) : pyfloat :=
  match x with
  | Fin a => Fin (exp a)
  | PInf => PInf
  | NInf => Fin 0
  | NaN => NaN
  end.

(** [scipy.stats.norm.cdf] and [norm.pdf]. *)
Definition fcdf (x : pyfloat) : pyfloat :=
  match x with
  | Fin a => Fin (Phi a)
  | PInf => Fin 1
  | NInf => Fin 0
  | NaN => NaN
  end.

Definition fpdf (x : pyfloat) : pyfloat :=
  match x with
  | Fin a => Fin (phi a)
  | PInf | NInf => Fin 0
  | NaN => NaN
  end.

(** [x > y]; false as soon as one side is [nan]. *)
Definition fgtb (x y : pyfloat) : bool :=
  match x, y with
  | NaN, _ | _, NaN => false
  | Fin a, Fin b => if Rlt_dec b a then true else false
  | PInf, PInf | NInf, _ | Fin _, PInf => false
  | PInf, _ | Fin _, NInf => true
  end.

Definition is_zero (x : pyfloat) : bool :=
  match x with
  | Fin a => if Req_EM_T a 0 then true else false
  | _ => false
  end.

(** ** Python values: a float and the type that carries it *)

Inductive numkind : Type := PyFloat | NpFloat64.

Record value : Type := Val { kind : numkind; num : pyfloat }.

(** A binary operation yields a [numpy.float64] as soon as one operand is. *)
Definition promote (k1 k2 : numkind) : numkind :=
  match k1, k2 with
  | PyFloat, PyFloat => PyFloat
  | _, _ => NpFloat64
  end.

(** A numeric literal of the source ([0.5], [1], [2], [100], [365]). *)
Definition lit (r : R) : value := Val PyFloat (Fin r).

Inductive exn : Type :=
| ZeroDivisionError
| AttributeError.

Inductive result (A : Type) : Type :=
| Return (a : A)
| Raise (e : exn).
Arguments Return {A} a.
Arguments Raise {A} e.

Definition py_neg (a : value) : value := Val (kind a) (fneg (num a)).
Definition py_add (a b : value) : value :=
  Val (promote (kind a) (kind b)) (fadd (num a) (num b)).
Definition py_sub (a b : value) : value :=
  Val (promote (kind a) (kind b)) (fsub (num a) (num b)).
Definition py_mul (a b : value) : value :=
  Val (promote (kind a) (kind b)) (fmul (num a) (num b)).
Definition py_pow (a : value) (n : nat) : value := Val (kind a) (fpow (num a) n).

(** [a / b]: Python's float division raises on a zero divisor; numpy's
    returns [inf] or [nan] (with a warning, which is not an exception). *)
Definition py_truediv (a b : value) : result value :=
  match promote (kind a) (kind b) with
  | PyFloat =>
      if is_zero (num b) then Raise ZeroDivisionError
      else Return (Val PyFloat (fdiv (num a) (num b)))
  | NpFloat64 => Return (Val NpFloat64 (fdiv (num a) (num b)))
  end.

Definition py_gt (a b : value) : bool := fgtb (num a) (num b).

Definition np_log (a : value) : value := Val NpFloat64 (flog (num a)).
Definition np_sqrt (a : value) : value := Val NpFloat64 (fsqrt (num a)).
Definition np_exp (a : value) : value := Val NpFloat64 (fexp (num a)).
Definition norm_cdf (a : value) : value := Val NpFloat64 (fcdf (num a)).
Definition norm_pdf (a : value) : value := Val NpFloat64 (fpdf (num a)).

(** ** Statements that mutate an object and may raise *)

Definition M (St A : Type) : Type := St -> result A * St.

Definition ret {St A : Type} (a : A) : M St A := fun s => (Return a, s).

Definition bind {St A B : Type} (m : M St A) (k : A -> M St B) : M St B :=
  fun s =>
    match m s with
    | (Return a, s') => k a s'
    | (Raise e, s') => (Raise e, s')
    end.

Definition lift {St A : Type} (r : result A) : M St A := fun s => (r, s).

Definition gets {St A : Type} (f : St -> A) : M St A := fun s => (Return (f s), s).

Definition modify {St : Type} (f : St -> St) : M St unit := fun s => (Return tt, f s).

Declare Scope py_scope.
Delimit Scope py_scope with py.
Notation "x <- m ;; k" := (bind m (fun x => k))
  (at level 61, m at next level, right associativity) : py_scope.
Notation "m ;;; k" := (bind m (fun _ => k))
  (at level 61, right associativity) : py_scope.
Notation "a + b" := (py_add a b) : py_scope.
Notation "a - b" := (py_sub a b) : py_scope.
Notation "a * b" := (py_mul a b) : py_scope.
Notation "- a" := (py_neg a) : py_scope.
Notation "a ** n" := (py_pow a n) (at level 30, right associativity) : py_scope.
Notation "a / b" := (lift (py_truediv a b)) : py_scope.

(** ** The class [BlackScholes] *)

(** The attributes that [calculate_prices] assigns. *)
Inductive attr : Type :=
| call_price | put_price
| call_delta | put_delta
| call_gamma | put_gamma
| call_theta | put_theta
| vega
| call_rho | put_rho.

Definition attr_eqb (a b : attr) : bool :=
  match a, b with
  | call_price, call_price | put_price, put_price
  | call_delta, call_delta | put_delta, put_delta
  | call_gamma, call_gamma | put_gamma, put_gamma
  | call_theta, call_theta | put_theta, put_theta
  | vega, vega
  | call_rho, call_rho | put_rho, put_rho => true
  | _, _ => false
  end.

(** An instance: the five attributes set by [__init__], and the attributes
    assigned later ([None] while an attribute does not exist). *)
Record BlackScholes : Type := mkBlackScholes {
  time_to_maturity : value;
  strike : value;
  current_price : value;
  volatility : value;
  interest_rate : value;
  results : attr -> option value
}.

(** [BlackScholes.__init__]. *)
Definition BlackScholes_init
  (time_to_maturity strike current_price volatility interest_rate : value)
  : BlackScholes :=
  mkBlackScholes time_to_maturity strike current_price volatility interest_rate
    (fun _ => None).

(** [self.a = v]. *)
Definition set_attr (a : attr) (v : value) (self : BlackScholes) : BlackScholes :=
  mkBlackScholes (time_to_maturity self) (strike self) (current_price self)
    (volatility self) (interest_rate self)
    (fun b => if attr_eqb a b then Some v else results self b).

Definition setattr (a : attr) (v : value) : M BlackScholes unit :=
  modify (set_attr a v).

(** [self.a] for an attribute assigned by [calculate_prices]. *)
Definition read_attr (self : BlackScholes) (a : attr) : result value :=
  match results self a with
  | Some v => Return v
  | None => Raise AttributeError
  end.

Definition getattr (a : attr) : M BlackScholes value :=
  fun self => (read_attr self a, self).

Section calculate_prices.
Local Open Scope py_scope.

(** [BlackScholes.calculate_prices]: the statements of the method in
    order.  The local names of the source shadow the attribute names. *)
Definition calculate_prices : M BlackScholes (value * value) :=
  time_to_maturity <- gets time_to_maturity ;;
  strike <- gets strike ;;
  current_price <- gets current_price ;;
  volatility <- gets volatility ;;
  interest_rate <- gets interest_rate ;;
  q <- current_price / strike ;;
  d1 <- (np_log q + (interest_rate + lit 0.5 * volatility ** 2) * time_to_maturity)
        / (volatility * np_sqrt time_to_maturity) ;;
  let d2 := d1 - volatility * np_sqrt time_to_maturity in
  let call_price_ :=
    current_price * norm_cdf d1
    - (strike * np_exp (- interest_rate * time_to_maturity) * norm_cdf d2) in
  let put_price_ :=
    (strike * np_exp (- interest_rate * time_to_maturity) * norm_cdf (- d2))
    - current_price * norm_cdf (- d1) in
  setattr call_price call_price_ ;;;
  setattr put_price put_price_ ;;;
  setattr call_delta (norm_cdf d1) ;;;
  setattr put_delta (norm_cdf d1 - lit 1) ;;;
  g <- norm_pdf d1 / (current_price * volatility * np_sqrt time_to_maturity) ;;
  setattr call_gamma g ;;;
  g' <- getattr call_gamma ;;
  setattr put_gamma g' ;;;
  ct0 <- - current_price * norm_pdf d1 * volatility
         / (lit 2 * np_sqrt time_to_maturity) ;;
  ct <- (ct0 - interest_rate * strike * np_exp (- interest_rate * time_to_maturity)
               * norm_cdf d2) / lit 365 ;;
  setattr call_theta ct ;;;
  pt0 <- - current_price * norm_pdf d1 * volatility
         / (lit 2 * np_sqrt time_to_maturity) ;;
  pt <- (pt0 + interest_rate * strike * np_exp (- interest_rate * time_to_maturity)
               * norm_cdf (- d2)) / lit 365 ;;
  setattr put_theta pt ;;;
  v <- (current_price * np_sqrt time_to_maturity * norm_pdf d1) / lit 100 ;;
  setattr vega v ;;;
  cr <- (strike * time_to_maturity * np_exp (- interest_rate * time_to_maturity)
         * norm_cdf d2) / lit 100 ;;
  setattr call_rho cr ;;;
  pr <- (- strike * time_to_maturity * np_exp (- interest_rate * time_to_maturity)
         * norm_cdf (- d2)) / lit 100 ;;
  setattr put_rho pr ;;;
  ret (call_price_, put_price_).

End calculate_prices.

(** ** The heatmap construction of the dashboard *)

(** [numpy.linspace (start, stop, num)] for finite endpoints: [num] samples
    [start + i * step] with [step = (stop - start) / (num - 1)]. *)
Definition linspace (start stop : R) (num : nat) : list value :=
  map (fun i => Val NpFloat64 (Fin (start + INR i * ((stop - start) / INR (num - 1)))))
      (seq 0 num).

(** A two-dimensional [numpy] array of floats, row by row. *)
Definition grid : Type := list (list pyfloat).

(** [numpy.zeros ((rows, cols))]. *)
Definition zeros (rows cols : nat) : grid := repeat (repeat (Fin 0) cols) rows.

Fixpoint set_nth {A : Type} (n : nat) (x : A) (l : list A) : list A :=
  match l, n with
  | [], _ => []
  | _ :: l', O => x :: l'
  | y :: l', S n' => y :: set_nth n' x l'
  end.

(** [g[i, j] = x]; the indices of the loops below are always in range. *)
Definition set_cell (i j : nat) (x : pyfloat) (g : grid) : grid :=
  set_nth i (set_nth j x (nth i g [])) g.

(** [g[i, j]]. *)
Definition cell (g : grid) (i j : nat) : pyfloat := nth j (nth i g []) NaN.

(** The local state of [plot_pnl_heatmap]: the two arrays, and (as a ghost
    record of the calls made) the instances on which [calculate_prices]
    was invoked, latest first. *)
Record heatmap_state : Type := mkHeatmap {
  call_pnl : grid;
  put_pnl : grid;
  engine_calls : list BlackScholes
}.

(** [for i, x in enumerate (l): body], counting from [i]. *)
Fixpoint for_enumerate {St A : Type} (i : nat) (l : list A)
  (body : nat -> A -> M St unit) : M St unit :=
  match l with
  | [] => ret tt
  | x :: l' => bind (body i x) (fun _ => for_enumerate (S i) l' body)
  end.

(** [obj.method ()] on a local object [obj]: the method runs on [obj],
    an exception propagates, and the mutated object is handed on. *)
Definition call_method {St A : Type} (obj : BlackScholes) (m : M BlackScholes A)
  (log : BlackScholes -> St -> St) : M St (A * BlackScholes) :=
  fun s =>
    match m obj with
    | (Return a, obj') => (Return (a, obj'), log obj s)
    | (Raise e, _) => (Raise e, log obj s)
    end.

Section plot_pnl_heatmap.
Local Open Scope py_scope.

(** [x - purchase_price if purchase_price > 0 else x]. *)
Definition pnl (x purchase_price : value) : value :=
  if py_gt purchase_price (lit 0) then x - purchase_price else x.

(** The body of the double loop of [plot_pnl_heatmap]. *)
Definition heatmap_cell (bs_model : BlackScholes)
  (strike call_purchase_price put_purchase_price : value)
  (i : nat) (vol : value) (j : nat) (spot : value) : M heatmap_state unit :=
  let bs_temp :=
    BlackScholes_init (time_to_maturity bs_model) strike spot vol
      (interest_rate bs_model) in
  r <- call_method bs_temp calculate_prices
         (fun b s => mkHeatmap (call_pnl s) (put_pnl s) (b :: engine_calls s)) ;;
  let bs_temp := snd r in
  c <- lift (read_attr bs_temp call_price) ;;
  modify (fun s => mkHeatmap (set_cell i j (num (pnl c call_purchase_price)) (call_pnl s))
                     (put_pnl s) (engine_calls s)) ;;;
  p <- lift (read_attr bs_temp put_price) ;;
  modify (fun s => mkHeatmap (call_pnl s)
                     (set_cell i j (num (pnl p put_purchase_price)) (put_pnl s))
                     (engine_calls s)).

(** [plot_pnl_heatmap] up to the two arrays it hands to [sns.heatmap]. *)
Definition plot_pnl_heatmap (bs_model : BlackScholes) (spot_range vol_range : list value)
  (strike call_purchase_price put_purchase_price : value)
  : result unit * heatmap_state :=
  (for_enumerate 0 vol_range (fun i vol =>
     for_enumerate 0 spot_range (fun j spot =>
       heatmap_cell bs_model strike call_purchase_price put_purchase_price
         i vol j spot)))
    (mkHeatmap (zeros (length vol_range) (length spot_range))
               (zeros (length vol_range) (length spot_range)) []).

End plot_pnl_heatmap.

(** The heatmap section of the dashboard: the two ranges of 10 samples and
    the two calls of [plot_pnl_heatmap] with the same arguments; the call
    heatmap shown is the first figure of the first call, the put heatmap the
    second figure of the second call.  The result is the two arrays shown
    and the instances priced by both calls, latest first. *)
Definition heatmap_section (bs_model : BlackScholes)
  (spot_min spot_max vol_min vol_max : R)
  (strike call_purchase_price put_purchase_price : value)
  : grid * grid * list BlackScholes :=
  let spot_range := linspace spot_min spot_max 10 in
  let vol_range := linspace vol_min vol_max 10 in
  let first := plot_pnl_heatmap bs_model spot_range vol_range strike
                 call_purchase_price put_purchase_price in
  let second := plot_pnl_heatmap bs_model spot_range vol_range strike
                  call_purchase_price put_purchase_price in
  (call_pnl (snd first), put_pnl (snd second),
   engine_calls (snd second) ++ engine_calls (snd first)).

(** ** The Greeks table of the dashboard *)



(** ** The dashboard script *)


(** ** The formulas of the specification, over the reals *)

Module Spec.
Section formulas.
Variables time_to_maturity strike current_price volatility interest_rate : R.

Definition d1 : R :=
  (ln (current_price / strike)
   + (interest_rate + 0.5 * volatility ^ 2) * time_to_maturity)
  / (volatility * sqrt time_to_maturity).

Definition d2 : R := d1 - volatility * sqrt time_to_maturity.

Definition call_price : R :=
  current_price * Phi d1
  - strike * exp (- interest_rate * time_to_maturity) * Phi d2.

Definition put_price : R :=
  strike * exp (- interest_rate * time_to_maturity) * Phi (- d2)
  - current_price * Phi (- d1).

Definition call_delta : R := Phi d1.

Definition put_delta : R := Phi d1 - 1.

Definition gamma : R :=
  phi d1 / (current_price * volatility * sqrt time_to_maturity).

Definition call_theta : R :=
  (- current_price * phi d1 * volatility / (2 * sqrt time_to_maturity)
   - interest_rate * strike * exp (- interest_rate * time_to_maturity) * Phi d2)
  / 365.

Definition put_theta : R :=
  (- current_price * phi d1 * volatility / (2 * sqrt time_to_maturity)
   + interest_rate * strike * exp (- interest_rate * time_to_maturity) * Phi (- d2))
  / 365.

Definition vega : R := current_price * sqrt time_to_maturity * phi d1 / 100.

Definition call_rho : R :=
  strike * time_to_maturity * exp (- interest_rate * time_to_maturity) * Phi d2 / 100.

Definition put_rho : R :=
  - strike * time_to_maturity * exp (- interest_rate * time_to_maturity) * Phi (- d2)
  / 100.

End formulas.
End Spec.

(** ** Vocabulary of the statements *)

(** Division in which a [numpy.float64] takes part (it never raises). *)
Definition np_div (a b : value) : value := Val NpFloat64 (fdiv (num a) (num b)).

(** The five inputs of [self] are the finite numbers [T K S sigma r]. *)
Definition inputs (self : BlackScholes) (T K S sigma r : R) : Prop :=
  num (time_to_maturity self) = Fin T /\
  num (strike self) = Fin K /\
  num (current_price self) = Fin S /\
  num (volatility self) = Fin sigma /\
  num (interest_rate self) = Fin r.

(** The precondition of the pricing engine. *)
Definition valid_inputs (self : BlackScholes) (T K S sigma r : R) : Prop :=
  inputs self T K S sigma r /\ 0 < T /\ 0 < sigma /\ 0 < K /\ 0 < S.

(** The formula of the specification for each result attribute. *)
Definition spec_attr (T K S sigma r : R) (a : attr) : R :=
  match a with
  | call_price => Spec.call_price T K S sigma r
  | put_price => Spec.put_price T K S sigma r
  | call_delta => Spec.call_delta T K S sigma r
  | put_delta => Spec.put_delta T K S sigma r
  | call_gamma | put_gamma => Spec.gamma T K S sigma r
  | call_theta => Spec.call_theta T K S sigma r
  | put_theta => Spec.put_theta T K S sigma r
  | vega => Spec.vega T K S sigma r
  | call_rho => Spec.call_rho T K S sigma r
  | put_rho => Spec.put_rho T K S sigma r
  end.

Definition same_inputs (self self' : BlackScholes) : Prop :=
  time_to_maturity self' = time_to_maturity self /\
  strike self' = strike self /\
  current_price self' = current_price self /\
  volatility self' = volatility self /\
  interest_rate self' = interest_rate self.

(** Partial sums of the series of [exp (- u)]. *)
Fixpoint exp_neg_poly (k : nat) (u : R) : R :=
  match k with
  | O => 1
  | S k' => exp_neg_poly k' u + (- u) ^ k / INR (fact k)
  end.

(** Polynomials that enclose [gauss_int] on the non-negative reals. *)
Definition gauss_int_upper (x : R) : R := x - x ^ 3 / 6 + x ^ 5 / 40.
Definition gauss_int_lower (x : R) : R := x - x ^ 3 / 6 + x ^ 5 / 40 - x ^ 7 / 336.

(** [x] is [v] when rounded to [d] decimals. *)
Definition approx (x v : R) (d : nat) : Prop := Rabs (x - v) <= 5 / 10 ^ S d.

(** [g] has [rows] rows of [cols] cells. *)
Definition dims (g : grid) (rows cols : nat) : Prop :=
  length g = rows /\ forall i, (i < rows)%nat -> length (nth i g []) = cols.

(** The instance [bs_temp] built for one cell of the heatmap. *)
Definition cell_model (bs_model : BlackScholes) (strike vol spot : value) : BlackScholes :=
  BlackScholes_init (time_to_maturity bs_model) strike spot vol (interest_rate bs_model).

(** The value is a [numpy.float64]. *)
Definition is_np (v : value) : Prop := kind v = NpFloat64.

(** The instance of the example run of the module:
    [BlackScholes (1.0, 100.0, 100.0, 0.2, 0.05)]. *)
Definition reference_model : BlackScholes :=
  BlackScholes_init (lit 1) (lit 100) (lit 100) (lit 0.2) (lit 0.05).



(** ** Vocabulary of the further properties *)

(** The instance built from five finite Python floats. *)
Definition model_of (T K S sigma r : R) : BlackScholes :=
  BlackScholes_init (lit T) (lit K) (lit S) (lit sigma) (lit r).

(** The number held by attribute [a] of [self] (0 when the attribute is
    missing or not finite). *)
Definition stored_in (self : BlackScholes) (a : attr) : R :=
  match results self a with
  | Some (Val _ (Fin x)) => x
  | _ => 0
  end.

(** The number that [calculate_prices] stores in attribute [a] for the
    inputs [T K S sigma r]. *)
Definition stored (a : attr) (T K S sigma r : R) : R :=
  stored_in (snd (calculate_prices (model_of T K S sigma r))) a.

Section assigned.
Local Open Scope py_scope.

(** The value that [calculate_prices] assigns to attribute [a] once
    [q = current_price / strike] has been computed (lemma
    [calculate_prices_assigned]). *)
Definition assigned (T K S sigma r q : value) (a : attr) : value :=
  let d1 := np_div (np_log q + (r + lit 0.5 * sigma ** 2) * T) (sigma * np_sqrt T) in
  let d2 := d1 - sigma * np_sqrt T in
  let t0 := np_div (- S * norm_pdf d1 * sigma) (lit 2 * np_sqrt T) in
  match a with
  | call_price => S * norm_cdf d1 - (K * np_exp (- r * T) * norm_cdf d2)
  | put_price => (K * np_exp (- r * T) * norm_cdf (- d2)) - S * norm_cdf (- d1)
  | call_delta => norm_cdf d1
  | put_delta => norm_cdf d1 - lit 1
  | call_gamma | put_gamma => np_div (norm_pdf d1) (S * sigma * np_sqrt T)
  | call_theta => np_div (t0 - r * K * np_exp (- r * T) * norm_cdf d2) (lit 365)
  | put_theta => np_div (t0 + r * K * np_exp (- r * T) * norm_cdf (- d2)) (lit 365)
  | vega => np_div (S * np_sqrt T * norm_pdf d1) (lit 100)
  | call_rho => np_div (K * T * np_exp (- r * T) * norm_cdf d2) (lit 100)
  | put_rho => np_div (- K * T * np_exp (- r * T) * norm_cdf (- d2)) (lit 100)
  end.

End assigned.








(** * Properties *)

(** ** The integral of the Gaussian density *)

Lemma gauss_int_0 : gauss_int 0 = 0.
Proof. unfold gauss_int. apply RiemannInt_P9. Qed.

(** The fundamental theorem of calculus for [gauss_int]. *)
Lemma gauss_int_derivable_pt_lim (x : R) : derivable_pt_lim gauss_int x (gauss x).
Proof.
  assert (Hab : x - 1 <= x + 1) by lra.
  assert (C0 : forall y, x - 1 <= y <= x + 1 -> continuity_pt gauss y)
    by (intros; apply gauss_continuity).
  apply (derivable_pt_lim_locally_ext
           (fun y => gauss_int (x - 1) + primitive Hab (FTC_P1 Hab C0) y)
           gauss_int x (x - 1) (x + 1)).
  - lra.
  - intros y Hy. unfold primitive, gauss_int.
    destruct (Rle_dec (x - 1) y) as [H1 | H1]; [| lra].
    destruct (Rle_dec y (x + 1)) as [H2 | H2]; [| lra].
    apply RiemannInt_P26.
  - replace (gauss x) with (0 + gauss x) by ring.
    apply (derivable_pt_lim_plus (fun _ => gauss_int (x - 1))).
    + apply derivable_pt_lim_const.
    + apply RiemannInt_P28. lra.
Qed.

(** Monotonicity from the sign of the derivative (mean value theorem). *)
Lemma deriv_nonneg_le (f f' : R -> R) (a b : R) :
  a <= b ->
  (forall c, a <= c <= b -> derivable_pt_lim f c (f' c)) ->
  (forall c, a < c < b -> 0 <= f' c) ->
  f a <= f b.
Proof.
  intros [Hab | Hab] Hd Hpos; [| subst; lra].
  destruct (MVT_cor2 f f' a b Hab Hd) as [c [Hc Hin]].
  specialize (Hpos c Hin). nra.
Qed.

Lemma deriv_pos_lt (f f' : R -> R) (a b : R) :
  a < b ->
  (forall c, a <= c <= b -> derivable_pt_lim f c (f' c)) ->
  (forall c, a < c < b -> 0 < f' c) ->
  f a < f b.
Proof.
  intros Hab Hd Hpos.
  destruct (MVT_cor2 f f' a b Hab Hd) as [c [Hc Hin]].
  specialize (Hpos c Hin). nra.
Qed.











Lemma gauss_pos (t : R) : 0 < gauss t.
Proof. apply exp_pos. Qed.










Lemma gauss_even (t : R) : gauss (- t) = gauss t.
Proof. unfold gauss. replace (- t * - t) with (t * t) by ring. reflexivity. Qed.

Lemma gauss_int_odd (x : R) : gauss_int (- x) = - gauss_int x.
Proof.
  pose (D := fun y => gauss_int y + gauss_int (- y)).
  assert (HD : forall y, derivable_pt_lim D y ((fun _ => 0) y)).
  { intros y. unfold D.
    replace 0 with (gauss y + gauss (- y) * (- 1)) by (rewrite gauss_even; ring).
    apply (derivable_pt_lim_plus gauss_int (fun y => gauss_int (- y))).
    - apply gauss_int_derivable_pt_lim.
    - apply (derivable_pt_lim_comp (fun y => - y) gauss_int).
      + apply (derivable_pt_lim_opp id). apply derivable_pt_lim_id.
      + apply gauss_int_derivable_pt_lim. }
  assert (HD0 : D 0 = 0) by (unfold D; rewrite Ropp_0, gauss_int_0; ring).
  assert (Hc : forall a b, a < b -> D b = D a).
  { intros a b Hab.
    destruct (MVT_cor2 D (fun _ => 0) a b Hab (fun c _ => HD c)) as [c [Hc _]]. lra. }
  assert (HDx : D x = 0).
  { destruct (Rtotal_order x 0) as [H | [H | H]].
    - rewrite <- HD0. symmetry. apply Hc, H.
    - subst. exact HD0.
    - rewrite <- HD0. apply Hc, H. }
  unfold D in HDx. lra.
Qed.

(** ** The standard normal density and distribution function *)

Lemma sqrt_2PI_pos : 0 < sqrt (2 * PI).
Proof. apply sqrt_lt_R0. generalize PI_RGT_0. lra. Qed.


Lemma phi_pos (x : R) : 0 < phi x.
Proof.
  unfold phi. apply Rdiv_lt_0_compat; [apply gauss_pos | apply sqrt_2PI_pos].
Qed.

Lemma phi_even (x : R) : phi (- x) = phi x.
Proof. unfold phi. rewrite gauss_even. reflexivity. Qed.

(** [Phi] is an antiderivative of [phi]. *)
Lemma Phi_derivable_pt_lim (x : R) : derivable_pt_lim Phi x (phi x).
Proof.
  unfold Phi, phi.
  replace (gauss x / sqrt (2 * PI)) with (0 + gauss x * / sqrt (2 * PI)) by (unfold Rdiv; ring).
  apply (derivable_pt_lim_plus (fun _ => 1 / 2) (fun y => gauss_int y / sqrt (2 * PI))).
  - apply derivable_pt_lim_const.
  - apply (derivable_pt_lim_scal_right gauss_int). apply gauss_int_derivable_pt_lim.
Qed.

Lemma Phi_0 : Phi 0 = 1 / 2.
Proof. unfold Phi. rewrite gauss_int_0. unfold Rdiv. ring. Qed.

(** Symmetry of the normal distribution. *)
Lemma Phi_opp (x : R) : Phi (- x) = 1 - Phi x.
Proof. unfold Phi. rewrite gauss_int_odd. field. apply Rgt_not_eq, sqrt_2PI_pos. Qed.



Lemma Phi_incr (x y : R) : x < y -> Phi x < Phi y.
Proof.
  intros Hxy.
  apply (deriv_pos_lt Phi phi); [exact Hxy | |].
  - intros c _. apply Phi_derivable_pt_lim.
  - intros c _. apply phi_pos.
Qed.






(** ** Arithmetic on finite values *)

Lemma by_sign_pos {A : Type} (a : R) (p n z : A) : 0 < a -> by_sign a p n z = p.
Proof. intros H. unfold by_sign. destruct (Rlt_dec 0 a); [reflexivity | lra]. Qed.



Lemma fdiv_fin (a b : R) : b <> 0 -> fdiv (Fin a) (Fin b) = Fin (a / b).
Proof. intros H. simpl. destruct (Req_EM_T b 0); [contradiction | reflexivity]. Qed.


Lemma flog_fin (a : R) : 0 < a -> flog (Fin a) = Fin (ln a).
Proof. intros H. simpl. apply by_sign_pos, H. Qed.

Lemma fsqrt_fin (a : R) : 0 <= a -> fsqrt (Fin a) = Fin (sqrt a).
Proof. intros H. simpl. destruct (Rlt_dec a 0); [lra | reflexivity]. Qed.

Lemma is_zero_fin (a : R) : a <> 0 -> is_zero (Fin a) = false.
Proof. intros H. simpl. destruct (Req_EM_T a 0); [contradiction | reflexivity]. Qed.

Lemma promote_np_r (k : numkind) : promote k NpFloat64 = NpFloat64.
Proof. destruct k; reflexivity. Qed.

Lemma promote_np_l (k : numkind) : promote NpFloat64 k = NpFloat64.
Proof. reflexivity. Qed.

Lemma py_truediv_np (a b : value) :
  promote (kind a) (kind b) = NpFloat64 -> py_truediv a b = Return (np_div a b).
Proof. intros H. unfold py_truediv. rewrite H. reflexivity. Qed.

Lemma py_truediv_nonzero (a b : value) :
  is_zero (num b) = false ->
  py_truediv a b = Return (Val (promote (kind a) (kind b)) (fdiv (num a) (num b))).
Proof.
  intros H. unfold py_truediv. rewrite H. destruct (promote (kind a) (kind b)); reflexivity.
Qed.

Lemma py_truediv_cases (a b : value) :
  (py_truediv a b = Raise ZeroDivisionError
   /\ kind a = PyFloat /\ kind b = PyFloat /\ is_zero (num b) = true)
  \/ py_truediv a b = Return (Val (promote (kind a) (kind b)) (fdiv (num a) (num b))).
Proof.
  unfold py_truediv.
  destruct (kind a), (kind b); simpl; auto.
  destruct (is_zero (num b)); auto.
Qed.

Ltac np_kind :=
  cbn [kind py_add py_sub py_mul py_neg py_pow np_log np_sqrt np_exp norm_cdf norm_pdf
       lit np_div];
  rewrite ?promote_np_r; reflexivity.

Section run.
Local Open Scope py_scope.

(** [calculate_prices] once [current_price / strike] has been computed:
    every later division has a [numpy.float64] operand. *)
Lemma calculate_prices_run (self : BlackScholes) (q : value) :
  py_truediv (current_price self) (strike self) = Return q ->
  let T := time_to_maturity self in
  let K := strike self in
  let S := current_price self in
  let sigma := volatility self in
  let r := interest_rate self in
  let d1 := np_div (np_log q + (r + lit 0.5 * sigma ** 2) * T) (sigma * np_sqrt T) in
  let d2 := d1 - sigma * np_sqrt T in
  let c := S * norm_cdf d1 - (K * np_exp (- r * T) * norm_cdf d2) in
  let p := (K * np_exp (- r * T) * norm_cdf (- d2)) - S * norm_cdf (- d1) in
  let g := np_div (norm_pdf d1) (S * sigma * np_sqrt T) in
  let t0 := np_div (- S * norm_pdf d1 * sigma) (lit 2 * np_sqrt T) in
  calculate_prices self =
    (Return (c, p),
     set_attr put_rho (np_div (- K * T * np_exp (- r * T) * norm_cdf (- d2)) (lit 100))
    (set_attr call_rho (np_div (K * T * np_exp (- r * T) * norm_cdf d2) (lit 100))
    (set_attr vega (np_div (S * np_sqrt T * norm_pdf d1) (lit 100))
    (set_attr put_theta (np_div (t0 + r * K * np_exp (- r * T) * norm_cdf (- d2)) (lit 365))
    (set_attr call_theta (np_div (t0 - r * K * np_exp (- r * T) * norm_cdf d2) (lit 365))
    (set_attr put_gamma g
    (set_attr call_gamma g
    (set_attr put_delta (norm_cdf d1 - lit 1)
    (set_attr call_delta (norm_cdf d1)
    (set_attr put_price p
    (set_attr call_price c self))))))))))).
Proof.
  intros Hq T K S sigma r d1 d2 c p g t0.
  unfold calculate_prices, bind, gets, lift, setattr, modify, getattr, ret.
  rewrite Hq.
  rewrite (py_truediv_np (np_log q + _)) by np_kind.
  fold T K S sigma r. fold d1. fold d2.
  rewrite (py_truediv_np (norm_pdf d1)) by np_kind.
  fold g.
  replace (read_attr _ call_gamma) with (Return g) by reflexivity.
  rewrite (py_truediv_np (- S * norm_pdf d1 * sigma)) by np_kind.
  fold t0.
  rewrite (py_truediv_np (t0 - _)) by np_kind.
  rewrite (py_truediv_np (t0 + _)) by np_kind.
  rewrite (py_truediv_np (S * np_sqrt T * norm_pdf d1)) by np_kind.
  rewrite (py_truediv_np (K * T * _ * _)) by np_kind.
  rewrite (py_truediv_np (- K * T * _ * _)) by np_kind.
  reflexivity.
Qed.

End run.

(** ** Evaluation on valid inputs *)

Ltac fin_step :=
  progress (unfold py_add, py_sub, py_mul, py_neg, py_pow, np_log, np_sqrt, np_exp,
              norm_cdf, norm_pdf, lit, np_div;
            cbn [num kind fadd fsub fmul fneg fpow fexp fcdf fpdf];
            rewrite ?promote_np_r;
            rewrite ?fsqrt_fin, ?flog_fin, ?fdiv_fin by (assumption || lra)).

Lemma calculate_prices_valid (self : BlackScholes) (T K S sigma r : R) :
  valid_inputs self T K S sigma r ->
  exists self',
    calculate_prices self =
      (Return (Val NpFloat64 (Fin (Spec.call_price T K S sigma r)),
               Val NpFloat64 (Fin (Spec.put_price T K S sigma r))), self')
    /\ same_inputs self self'
    /\ forall a, results self' a = Some (Val NpFloat64 (Fin (spec_attr T K S sigma r a))).
Proof.
  intros [(HT & HK & HS & Hsig & Hr) (T0 & sig0 & K0 & S0)].
  destruct self as [[kT xT] [kK xK] [kS xS] [ks xs] [kr xr] res].
  cbn [time_to_maturity strike current_price volatility interest_rate num] in *.
  subst xT xK xS xs xr.
  assert (Hq0 : 0 < S / K) by (apply Rdiv_lt_0_compat; assumption).
  assert (Hsq : 0 < sqrt T) by (apply sqrt_lt_R0; assumption).
  assert (Hden1 : sigma * sqrt T <> 0) by (apply Rgt_not_eq; nra).
  assert (Hden2 : S * sigma * sqrt T <> 0).
  { apply Rgt_not_eq. apply Rmult_lt_0_compat; [nra | exact Hsq]. }
  assert (Hden3 : 2 * sqrt T <> 0) by lra.
  assert (HK0 : K <> 0) by lra.
  eexists. split; [| split].
  - rewrite (calculate_prices_run _ (Val (promote kS kK) (Fin (S / K)))).
    + cbn [time_to_maturity strike current_price volatility interest_rate].
      repeat fin_step.
      reflexivity.
    + cbn [time_to_maturity strike current_price volatility interest_rate].
      rewrite py_truediv_nonzero by (apply is_zero_fin; exact HK0).
      cbn [num kind]. rewrite fdiv_fin by exact HK0. reflexivity.
  - repeat split.
  - intros a. destruct a; cbn [results set_attr attr_eqb spec_attr];
      cbn [time_to_maturity strike current_price volatility interest_rate];
      repeat fin_step; reflexivity.
Qed.

(** ** The Black-Scholes formulas as functions of the spot price *)

Section spot.
Variables T K sigma r : R.
Hypothesis T_pos : 0 < T.
Hypothesis K_pos : 0 < K.
Hypothesis sigma_pos : 0 < sigma.

Let v := sigma * sqrt T.

Lemma spot_v_pos : 0 < v.
Proof. unfold v. apply Rmult_lt_0_compat; [exact sigma_pos | apply sqrt_lt_R0, T_pos]. Qed.

Lemma spot_v_sqr : v * v = sigma ^ 2 * T.
Proof.
  unfold v. replace (sigma * sqrt T * (sigma * sqrt T))
    with (sigma ^ 2 * (sqrt T * sqrt T)) by ring.
  rewrite sqrt_sqrt by lra. reflexivity.
Qed.

(** [S * phi (d1) = K * exp (- r T) * phi (d2)]. *)
Lemma phi_d1_d2 (S : R) :
  0 < S ->
  S * phi (Spec.d1 T K S sigma r)
  = K * exp (- r * T) * phi (Spec.d2 T K S sigma r).
Proof.
  intros S_pos.
  assert (Hv := spot_v_pos). assert (Hvv := spot_v_sqr).
  unfold Spec.d2. fold v. set (d1 := Spec.d1 T K S sigma r).
  assert (Hd1 : d1 * v = ln (S / K) + (r + 0.5 * sigma ^ 2) * T).
  { unfold d1, Spec.d1. fold v. field. lra. }
  assert (Hg : gauss (d1 - v) = gauss d1 * exp (ln (S / K) + r * T)).
  { unfold gauss. rewrite <- exp_plus. f_equal.
    replace (ln (S / K) + r * T) with (d1 * v - v * v / 2) by (rewrite Hd1, Hvv; lra).
    field. }
  unfold phi. rewrite Hg, exp_plus, exp_ln by (apply Rdiv_lt_0_compat; lra).
  replace (- r * T) with (- (r * T)) by ring. rewrite exp_Ropp.
  field. repeat split; try lra.
  - apply Rgt_not_eq, sqrt_2PI_pos.
  - apply Rgt_not_eq, exp_pos.
Qed.

Lemma d1_derivable_pt_lim (S : R) :
  0 < S ->
  derivable_pt_lim (fun s => Spec.d1 T K s sigma r) S (/ S / v).
Proof.
  intros S_pos. unfold Spec.d1. fold v.
  apply (derivable_pt_lim_scal_right
           (fun s => ln (s / K) + (r + 0.5 * sigma ^ 2) * T) S (/ S) (/ v)).
  replace (/ S) with (/ (S / K) * (1 * / K) + 0) by (field; lra).
  apply (derivable_pt_lim_plus (fun s => ln (s / K)) (fun _ => (r + 0.5 * sigma ^ 2) * T)).
  - apply (derivable_pt_lim_comp (fun s => s / K) ln).
    + apply (derivable_pt_lim_scal_right id). apply derivable_pt_lim_id.
    + apply derivable_pt_lim_ln. apply Rdiv_lt_0_compat; lra.
  - apply derivable_pt_lim_const.
Qed.

(** The derivative of the call price in the spot price is [Phi (d1)]. *)
Lemma call_price_derivable_pt_lim (S : R) :
  0 < S ->
  derivable_pt_lim (fun s => Spec.call_price T K s sigma r) S
    (Phi (Spec.d1 T K S sigma r)).
Proof.
  intros S_pos. assert (Hv := spot_v_pos).
  assert (Hd := d1_derivable_pt_lim S S_pos).
  unfold Spec.call_price.
  replace (Phi (Spec.d1 T K S sigma r))
    with ((1 * Phi (Spec.d1 T K S sigma r)
           + S * (phi (Spec.d1 T K S sigma r) * (/ S / v)))
          - K * exp (- r * T) * (phi (Spec.d2 T K S sigma r) * (/ S / v - 0))).
  - apply (derivable_pt_lim_minus
             (fun s => s * Phi (Spec.d1 T K s sigma r))
             (fun s => K * exp (- r * T) * Phi (Spec.d2 T K s sigma r))).
    + apply (derivable_pt_lim_mult id (fun s => Phi (Spec.d1 T K s sigma r))).
      * apply derivable_pt_lim_id.
      * apply (derivable_pt_lim_comp (fun s => Spec.d1 T K s sigma r) Phi);
          [exact Hd | apply Phi_derivable_pt_lim].
    + apply (derivable_pt_lim_scal (fun s => Phi (Spec.d2 T K s sigma r))).
      apply (derivable_pt_lim_comp (fun s => Spec.d2 T K s sigma r) Phi);
        [| apply Phi_derivable_pt_lim].
      unfold Spec.d2.
      apply (derivable_pt_lim_minus (fun s => Spec.d1 T K s sigma r)
               (fun _ => sigma * sqrt T)); [exact Hd | apply derivable_pt_lim_const].
  - assert (Hk := phi_d1_d2 S S_pos).
    set (p1 := phi (Spec.d1 T K S sigma r)) in *.
    set (p2 := phi (Spec.d2 T K S sigma r)) in *.
    replace (K * exp (- r * T) * (p2 * (/ S / v - 0)))
      with ((K * exp (- r * T) * p2) * (/ S / v)) by (field; lra).
    rewrite <- Hk. ring.
Qed.



End spot.

(** Put-call parity of the formulas; it only needs the symmetry of [Phi]. *)
Lemma put_call_parity (T K S sigma r : R) :
  Spec.call_price T K S sigma r - Spec.put_price T K S sigma r
  = S - K * exp (- r * T).
Proof.
  unfold Spec.call_price, Spec.put_price. rewrite !Phi_opp. ring.
Qed.

(** ** Numerical enclosures *)

Lemma exp_neg_poly_0 (k : nat) : exp_neg_poly k 0 = 1.
Proof.
  induction k as [| k IH]; [reflexivity |].
  cbn [exp_neg_poly]. rewrite IH, Ropp_0, pow_ne_zero by lia. unfold Rdiv. ring.
Qed.

Lemma exp_neg_poly_derivable_pt_lim (k : nat) (u : R) :
  derivable_pt_lim (exp_neg_poly (S k)) u (- exp_neg_poly k u).
Proof.
  induction k as [| k IH].
  - cbn [exp_neg_poly].
    replace (- (1)) with (0 + (1 * (- 1)) * / INR (fact 1)) by (simpl; field).
    apply (derivable_pt_lim_plus (fun _ => 1) (fun u => (- u) ^ 1 / INR (fact 1))).
    + apply derivable_pt_lim_const.
    + apply (derivable_pt_lim_scal_right (fun u => (- u) ^ 1)).
      apply (derivable_pt_lim_comp (fun u => - u) (fun y => y ^ 1)).
      * apply (derivable_pt_lim_opp id), derivable_pt_lim_id.
      * replace 1 with (INR 1 * u ^ pred 1) at 1 by (simpl; ring).
        replace (INR 1 * u ^ pred 1) with (INR 1 * (- u) ^ pred 1) by (simpl; ring).
        apply derivable_pt_lim_pow.
  - change (exp_neg_poly (S (S k)))
      with (fun u => exp_neg_poly (S k) u + (- u) ^ S (S k) / INR (fact (S (S k)))).
    assert (Hf : INR (fact (S k)) <> 0) by (apply INR_fact_neq_0).
    assert (Hn : INR (S (S k)) <> 0) by (apply not_0_INR; lia).
    replace (- exp_neg_poly (S k) u)
      with (- exp_neg_poly k u
            + (INR (S (S k)) * (- u) ^ pred (S (S k)) * (- 1)) * / INR (fact (S (S k)))).
    + apply (derivable_pt_lim_plus (exp_neg_poly (S k))
               (fun u => (- u) ^ S (S k) / INR (fact (S (S k))))); [exact IH |].
      apply (derivable_pt_lim_scal_right (fun u => (- u) ^ S (S k))).
      apply (derivable_pt_lim_comp (fun u => - u) (fun y => y ^ S (S k))).
      * apply (derivable_pt_lim_opp id), derivable_pt_lim_id.
      * apply derivable_pt_lim_pow.
    + cbn [exp_neg_poly pred].
      replace (fact (S (S k))) with (S (S k) * fact (S k))%nat by reflexivity.
      rewrite mult_INR. field. split; assumption.
Qed.

Lemma exp_neg_derivable_pt_lim (u : R) :
  derivable_pt_lim (fun u => exp (- u)) u (- exp (- u)).
Proof.
  replace (- exp (- u)) with (exp (- u) * - 1) by ring.
  apply (derivable_pt_lim_comp (fun u => - u) exp).
  - apply (derivable_pt_lim_opp id), derivable_pt_lim_id.
  - apply derivable_pt_lim_exp.
Qed.

(** The partial sums enclose [exp (- u)] for [u >= 0]: odd ones from
    below, even ones from above. *)
Lemma exp_neg_enclosure (j : nat) (u : R) :
  0 <= u ->
  exp_neg_poly (2 * j + 1) u <= exp (- u) <= exp_neg_poly (2 * j) u.
Proof.
  revert u.
  assert (Hup : forall k, (forall u, 0 <= u -> exp (- u) <= exp_neg_poly k u) ->
                forall u, 0 <= u -> exp_neg_poly (S k) u <= exp (- u)).
  { intros k IH u Hu.
    pose (F := fun u => exp (- u) - exp_neg_poly (S k) u).
    assert (H : F 0 <= F u).
    { apply (deriv_nonneg_le F (fun u => - exp (- u) - - exp_neg_poly k u)); [exact Hu | |].
      - intros c _. unfold F.
        apply (derivable_pt_lim_minus (fun u => exp (- u)) (exp_neg_poly (S k)));
          [apply exp_neg_derivable_pt_lim | apply exp_neg_poly_derivable_pt_lim].
      - intros c Hc. specialize (IH c ltac:(lra)). lra. }
    unfold F in H. rewrite exp_neg_poly_0, Ropp_0, exp_0 in H. lra. }
  assert (Hdown : forall k, (forall u, 0 <= u -> exp_neg_poly k u <= exp (- u)) ->
                  forall u, 0 <= u -> exp (- u) <= exp_neg_poly (S k) u).
  { intros k IH u Hu.
    pose (F := fun u => exp_neg_poly (S k) u - exp (- u)).
    assert (H : F 0 <= F u).
    { apply (deriv_nonneg_le F (fun u => - exp_neg_poly k u - - exp (- u))); [exact Hu | |].
      - intros c _. unfold F.
        apply (derivable_pt_lim_minus (exp_neg_poly (S k)) (fun u => exp (- u)));
          [apply exp_neg_poly_derivable_pt_lim | apply exp_neg_derivable_pt_lim].
      - intros c Hc. specialize (IH c ltac:(lra)). lra. }
    unfold F in H. rewrite exp_neg_poly_0, Ropp_0, exp_0 in H. lra. }
  induction j as [| j IH]; intros u Hu.
  - assert (H0 : forall u, 0 <= u -> exp (- u) <= exp_neg_poly 0 u).
    { intros w Hw. simpl. rewrite <- exp_0. 
      destruct Hw as [Hw | <-]; [left; apply exp_increasing; lra | rewrite Ropp_0; lra]. }
    split; [apply (Hup 0%nat H0 u Hu) | apply H0, Hu].
  - assert (Hlo : forall u, 0 <= u -> exp_neg_poly (2 * j + 1) u <= exp (- u))
      by (intros w Hw; apply IH, Hw).
    assert (Hhi : forall u, 0 <= u -> exp (- u) <= exp_neg_poly (2 * S j) u).
    { replace (2 * S j)%nat with (S (2 * j + 1)) by lia. apply Hdown, Hlo. }
    split; [| apply Hhi, Hu].
    replace (2 * S j + 1)%nat with (S (2 * S j)) by lia. apply Hup; [exact Hhi | exact Hu].
Qed.

Lemma derivable_pt_lim_eq (f : R -> R) (x l l' : R) :
  derivable_pt_lim f x l -> l = l' -> derivable_pt_lim f x l'.
Proof. intros H <-. exact H. Qed.

(** Derivatives of polynomial expressions, rule by rule. *)
Ltac deriv_poly :=
  lazymatch goal with
  | |- derivable_pt_lim (fun _ => ?c) _ _ => eapply (derivable_pt_lim_const c)
  | |- derivable_pt_lim (fun x => x) _ _ => eapply derivable_pt_lim_id
  | |- derivable_pt_lim (fun x => x ^ ?n) _ _ => eapply (derivable_pt_lim_pow _ n)
  | |- derivable_pt_lim (fun x => @?f x + @?g x) _ _ =>
      eapply (derivable_pt_lim_plus f g); deriv_poly
  | |- derivable_pt_lim (fun x => @?f x - @?g x) _ _ =>
      eapply (derivable_pt_lim_minus f g); deriv_poly
  | |- derivable_pt_lim (fun x => @?f x / ?c) _ _ =>
      eapply (derivable_pt_lim_scal_right f _ _ (/ c)); deriv_poly
  end.

Lemma gauss_int_enclosure (x : R) :
  0 <= x -> gauss_int_lower x <= gauss_int x <= gauss_int_upper x.
Proof.
  intros Hx. split.
  - pose (F := fun y => gauss_int y - gauss_int_lower y).
    assert (H : F 0 <= F x).
    { apply (deriv_nonneg_le F (fun y => gauss y - exp_neg_poly 3 (y * y / 2)));
        [exact Hx | |].
      - intros c _. unfold F.
        apply (derivable_pt_lim_minus gauss_int gauss_int_lower);
          [apply gauss_int_derivable_pt_lim |].
        unfold gauss_int_lower.
        eapply derivable_pt_lim_eq; [deriv_poly |].
        simpl. field.
      - intros c _. unfold gauss.
        generalize (exp_neg_enclosure 1 (c * c / 2) ltac:(nra)).
        change (2 * 1 + 1)%nat with 3%nat. lra. }
    unfold F, gauss_int_lower in H. rewrite gauss_int_0 in H.
    replace (0 - 0 ^ 3 / 6 + 0 ^ 5 / 40 - 0 ^ 7 / 336) with 0 in H by (simpl; field).
    unfold gauss_int_lower. lra.
  - pose (F := fun y => gauss_int_upper y - gauss_int y).
    assert (H : F 0 <= F x).
    { apply (deriv_nonneg_le F (fun y => exp_neg_poly 2 (y * y / 2) - gauss y));
        [exact Hx | |].
      - intros c _. unfold F.
        apply (derivable_pt_lim_minus gauss_int_upper gauss_int);
          [| apply gauss_int_derivable_pt_lim].
        unfold gauss_int_upper.
        eapply derivable_pt_lim_eq; [deriv_poly |].
        simpl. field.
      - intros c _. unfold gauss.
        generalize (exp_neg_enclosure 1 (c * c / 2) ltac:(nra)).
        change (2 * 1)%nat with 2%nat. lra. }
    unfold F, gauss_int_upper in H. rewrite gauss_int_0 in H.
    replace (0 - 0 ^ 3 / 6 + 0 ^ 5 / 40) with 0 in H by (simpl; field).
    unfold gauss_int_upper. lra.
Qed.

Lemma PI_enclosure : 3.141592 < PI < 3.141593.
Proof.
  generalize (PI_2_3_7_ineq 3).
  unfold sum_f_R0, tg_alt, PI_2_3_7_tg, Ratan_seq. simpl. lra.
Qed.

Lemma sqrt_2PI_enclosure : 2.506628 < sqrt (2 * PI) < 2.506629.
Proof.
  assert (HPI := PI_enclosure). assert (Hs := sqrt_2PI_pos).
  assert (Hq : sqrt (2 * PI) * sqrt (2 * PI) = 2 * PI) by (apply sqrt_sqrt; lra).
  split; apply Rnot_le_lt; intros Hc; nra.
Qed.

(** Dividing an enclosed non-negative number by [sqrt (2 PI)]. *)
Lemma div_sqrt_2PI_enclosure (a lo hi : R) :
  0 <= lo -> lo <= a <= hi ->
  lo / 2.506629 <= a / sqrt (2 * PI) <= hi / 2.506628.
Proof.
  intros Hlo [Ha1 Ha2]. assert (Hs := sqrt_2PI_enclosure).
  assert (Hi1 : / 2.506629 <= / sqrt (2 * PI)) by (apply Rinv_le_contravar; lra).
  assert (Hi2 : / sqrt (2 * PI) <= / 2.506628) by (apply Rinv_le_contravar; lra).
  assert (Hi0 : 0 < / 2.506629) by (apply Rinv_0_lt_compat; lra).
  unfold Rdiv. split.
  - apply Rmult_le_compat; lra.
  - apply Rmult_le_compat; lra.
Qed.

Lemma Phi_enclosure (x : R) :
  0 <= x -> 0 <= gauss_int_lower x ->
  1 / 2 + gauss_int_lower x / 2.506629 <= Phi x <= 1 / 2 + gauss_int_upper x / 2.506628.
Proof.
  intros Hx Hl. unfold Phi.
  generalize (div_sqrt_2PI_enclosure (gauss_int x) _ _ Hl (gauss_int_enclosure x Hx)). lra.
Qed.

Lemma Phi_035 : 0.63683 <= Phi 0.35 <= 0.636832.
Proof.
  generalize (Phi_enclosure 0.35 ltac:(lra)).
  unfold gauss_int_lower, gauss_int_upper. simpl pow. lra.
Qed.

Lemma Phi_015 : 0.559617 <= Phi 0.15 <= 0.559618.
Proof.
  generalize (Phi_enclosure 0.15 ltac:(lra)).
  unfold gauss_int_lower, gauss_int_upper. simpl pow. lra.
Qed.

Lemma exp_neg_enclosure_3_4 (u : R) :
  0 <= u ->
  1 - u + u ^ 2 / 2 - u ^ 3 / 6 <= exp (- u) <= 1 - u + u ^ 2 / 2 - u ^ 3 / 6 + u ^ 4 / 24.
Proof.
  intros Hu.
  assert (H1 := exp_neg_enclosure 1 u Hu). assert (H2 := exp_neg_enclosure 2 u Hu).
  change (2 * 1 + 1)%nat with 3%nat in H1. change (2 * 2)%nat with 4%nat in H2.
  cbn [exp_neg_poly fact Nat.mul Nat.add INR] in H1, H2.
  simpl pow in *. lra.
Qed.

Lemma phi_035 : 0.375239 <= phi 0.35 <= 0.375241.
Proof.
  unfold phi, gauss.
  replace (0.35 * 0.35 / 2) with 0.06125 by lra.
  assert (He := exp_neg_enclosure_3_4 0.06125 ltac:(lra)).
  simpl pow in He.
  assert (He' : 0.940587 <= exp (- (0.06125)) <= 0.940589) by lra.
  assert (Hd := div_sqrt_2PI_enclosure _ 0.940587 0.940589 ltac:(lra) He').
  lra.
Qed.

Lemma exp_neg_005 : 0.951229 <= exp (- (0.05)) <= 0.95123.
Proof.
  assert (He := exp_neg_enclosure_3_4 0.05 ltac:(lra)). simpl pow in He. lra.
Qed.

Lemma reference_d1 : Spec.d1 1 100 100 0.2 0.05 = 0.35.
Proof.
  unfold Spec.d1. replace (100 / 100) with 1 by lra.
  rewrite ln_1, sqrt_1. lra.
Qed.

Lemma reference_d2 : Spec.d2 1 100 100 0.2 0.05 = 0.15.
Proof. unfold Spec.d2. rewrite reference_d1, sqrt_1. lra. Qed.

Lemma reference_call_price :
  10.45 <= Spec.call_price 1 100 100 0.2 0.05 <= 10.451.
Proof.
  unfold Spec.call_price. rewrite reference_d1, reference_d2.
  replace (- (0.05) * 1) with (- (0.05)) by lra.
  assert (H1 := Phi_035). assert (H2 := Phi_015). assert (H3 := exp_neg_005).
  assert (H4 : 0.951229 * 0.559617 <= exp (- (0.05)) * Phi 0.15)
    by (apply Rmult_le_compat; lra).
  assert (H5 : exp (- (0.05)) * Phi 0.15 <= 0.95123 * 0.559618)
    by (apply Rmult_le_compat; lra).
  lra.
Qed.

Lemma reference_put_price :
  5.572 <= Spec.put_price 1 100 100 0.2 0.05 <= 5.574.
Proof.
  assert (Hp := put_call_parity 1 100 100 0.2 0.05).
  replace (- (0.05) * 1) with (- (0.05)) in Hp by lra.
  assert (H1 := reference_call_price). assert (H3 := exp_neg_005). lra.
Qed.

(** ** Evaluation outside the precondition *)

Lemma calculate_prices_raise (self : BlackScholes) (e : exn) :
  py_truediv (current_price self) (strike self) = Raise e ->
  calculate_prices self = (Raise e, self).
Proof.
  intros H. unfold calculate_prices, bind, gets, lift. rewrite H. reflexivity.
Qed.


(** ** The heatmap loops *)

Lemma set_nth_length {A : Type} (n : nat) (x : A) (l : list A) :
  length (set_nth n x l) = length l.
Proof.
  revert n. induction l as [| y l IH]; intros [| n]; simpl; auto.
Qed.

Lemma nth_set_nth_eq {A : Type} (n : nat) (x d : A) (l : list A) :
  (n < length l)%nat -> nth n (set_nth n x l) d = x.
Proof.
  revert n. induction l as [| y l IH]; intros [| n] H; simpl in *; try lia; auto.
  apply IH. lia.
Qed.

Lemma nth_set_nth_neq {A : Type} (n m : nat) (x d : A) (l : list A) :
  n <> m -> nth m (set_nth n x l) d = nth m l d.
Proof.
  revert n m. induction l as [| y l IH]; intros [| n] [| m] H; simpl; auto; try lia.
Qed.

Lemma set_nth_beyond {A : Type} (n : nat) (x : A) (l : list A) :
  (length l <= n)%nat -> set_nth n x l = l.
Proof.
  revert n. induction l as [| y l IH]; intros [| n] H; simpl in *; auto; try lia.
  f_equal. apply IH. lia.
Qed.

Lemma dims_zeros (rows cols : nat) : dims (zeros rows cols) rows cols.
Proof.
  unfold dims, zeros. split; [apply repeat_length |].
  intros i Hi. rewrite nth_repeat_lt by exact Hi. apply repeat_length.
Qed.

Lemma dims_set_cell (g : grid) (rows cols i j : nat) (x : pyfloat) :
  dims g rows cols -> dims (set_cell i j x g) rows cols.
Proof.
  intros [Hr Hc]. unfold set_cell. split; [rewrite set_nth_length; exact Hr |].
  intros i' Hi'. destruct (Nat.eq_dec i i') as [<- | Hne].
  - rewrite nth_set_nth_eq by lia. rewrite set_nth_length. apply Hc, Hi'.
  - rewrite nth_set_nth_neq by exact Hne. apply Hc, Hi'.
Qed.

Lemma cell_set_cell_eq (g : grid) (rows cols i j : nat) (x : pyfloat) :
  dims g rows cols -> (i < rows)%nat -> (j < cols)%nat ->
  cell (set_cell i j x g) i j = x.
Proof.
  intros [Hr Hc] Hi Hj. unfold cell, set_cell.
  rewrite nth_set_nth_eq by lia. apply nth_set_nth_eq. rewrite Hc by exact Hi. exact Hj.
Qed.

Lemma cell_set_cell_neq (g : grid) (i j i' j' : nat) (x : pyfloat) :
  i <> i' \/ j <> j' -> cell (set_cell i j x g) i' j' = cell g i' j'.
Proof.
  intros H. unfold cell, set_cell.
  destruct (Nat.eq_dec i i') as [<- | Hne].
  - destruct H as [H | H]; [contradiction |].
    destruct (Nat.lt_ge_cases i (length g)) as [Hlt | Hge].
    + rewrite nth_set_nth_eq by exact Hlt. apply nth_set_nth_neq, H.
    + rewrite set_nth_beyond by exact Hge. reflexivity.
  - rewrite nth_set_nth_neq by exact Hne. reflexivity.
Qed.

(** A call on an instance whose [current_price] is a [numpy.float64]
    returns, with the returned pair stored. *)
Lemma calculate_prices_np (self : BlackScholes) :
  kind (current_price self) = NpFloat64 ->
  exists c p self',
    calculate_prices self = (Return (c, p), self')
    /\ results self' call_price = Some c /\ results self' put_price = Some p.
Proof.
  intros Hk.
  assert (Hq : py_truediv (current_price self) (strike self)
               = Return (np_div (current_price self) (strike self))).
  { apply py_truediv_np. rewrite Hk. reflexivity. }
  rewrite (calculate_prices_run _ _ Hq).
  eexists. eexists. eexists. split; [reflexivity |]. split; reflexivity.
Qed.

Section loops.
Variables (bs_model : BlackScholes) (strike cpp ppp : value).

(** The value stored for a cell in the call and in the put array. *)
Definition call_cell (vol spot : value) : pyfloat :=
  match fst (calculate_prices (cell_model bs_model strike vol spot)) with
  | Return (c, _) => num (pnl c cpp)
  | Raise _ => NaN
  end.

Definition put_cell (vol spot : value) : pyfloat :=
  match fst (calculate_prices (cell_model bs_model strike vol spot)) with
  | Return (_, p) => num (pnl p ppp)
  | Raise _ => NaN
  end.

Lemma heatmap_cell_run (i j : nat) (vol spot : value) (s : heatmap_state) :
  is_np spot ->
  heatmap_cell bs_model strike cpp ppp i vol j spot s =
    (Return tt,
     mkHeatmap (set_cell i j (call_cell vol spot) (call_pnl s))
               (set_cell i j (put_cell vol spot) (put_pnl s))
               (cell_model bs_model strike vol spot :: engine_calls s)).
Proof.
  intros Hnp.
  destruct (calculate_prices_np (cell_model bs_model strike vol spot) Hnp)
    as (c & p & self' & Hrun & Hc & Hp).
  unfold call_cell, put_cell. rewrite Hrun. cbn [fst].
  unfold heatmap_cell, bind, call_method, lift, modify, read_attr.
  fold (cell_model bs_model strike vol spot). rewrite Hrun. cbn [snd].
  rewrite Hc, Hp. reflexivity.
Qed.

(** The inner loop over a row. *)
Lemma inner_loop_run (i : nat) (vol : value) (rows cols : nat) :
  forall (spots : list value) (j0 : nat) (s : heatmap_state),
    Forall is_np spots ->
    dims (call_pnl s) rows cols -> dims (put_pnl s) rows cols ->
    (i < rows)%nat -> (j0 + length spots <= cols)%nat ->
    exists s',
      for_enumerate j0 spots (heatmap_cell bs_model strike cpp ppp i vol) s
      = (Return tt, s')
      /\ dims (call_pnl s') rows cols /\ dims (put_pnl s') rows cols
      /\ engine_calls s'
         = rev (map (cell_model bs_model strike vol) spots) ++ engine_calls s
      /\ forall i' j',
           (i' = i /\ (j0 <= j' < j0 + length spots)%nat ->
            cell (call_pnl s') i' j' = call_cell vol (nth (j' - j0) spots (lit 0))
            /\ cell (put_pnl s') i' j' = put_cell vol (nth (j' - j0) spots (lit 0)))
           /\ (~ (i' = i /\ (j0 <= j' < j0 + length spots)%nat) ->
               cell (call_pnl s') i' j' = cell (call_pnl s) i' j'
               /\ cell (put_pnl s') i' j' = cell (put_pnl s) i' j').
Proof.
  induction spots as [| spot spots IH]; intros j0 s Hnp Hdc Hdp Hi Hj.
  - exists s. cbn [for_enumerate ret length map rev app].
    split; [reflexivity |]. split; [exact Hdc |]. split; [exact Hdp |].
    split; [reflexivity |].
    intros i' j'. split; [intros [_ H]; lia | intros _; split; reflexivity].
  - inversion Hnp as [| ? ? Hspot Hrest]; subst.
    cbn [for_enumerate length] in *. unfold bind.
    rewrite (heatmap_cell_run i j0 vol spot s Hspot).
    set (s1 := mkHeatmap _ _ _).
    destruct (IH (S j0) s1 Hrest) as (s' & Hrun & Hdc' & Hdp' & Hlog & Hcells).
    + apply dims_set_cell, Hdc.
    + apply dims_set_cell, Hdp.
    + exact Hi.
    + lia.
    + exists s'. split; [exact Hrun |]. split; [exact Hdc' |]. split; [exact Hdp' |].
      split.
      * rewrite Hlog. unfold s1. cbn [engine_calls map rev]. rewrite <- app_assoc.
        reflexivity.
      * intros i' j'. split.
        -- intros [-> Hj'].
           destruct (Nat.eq_dec j' j0) as [-> | Hne].
           ++ destruct (Hcells i j0) as [_ Hout].
              destruct Hout as [H1 H2]; [lia |].
              rewrite H1, H2. unfold s1. cbn [call_pnl put_pnl].
              rewrite Nat.sub_diag. cbn [nth].
              split; apply (cell_set_cell_eq _ rows cols); assumption || lia.
           ++ destruct (Hcells i j') as [Hin _].
              destruct Hin as [H1 H2]; [lia |].
              rewrite H1, H2.
              replace (j' - j0)%nat with (S (j' - S j0)) by lia.
              cbn [nth]. split; reflexivity.
        -- intros Hout.
           destruct (Hcells i' j') as [_ Hout'].
           destruct Hout' as [H1 H2]; [lia |].
           rewrite H1, H2. unfold s1. cbn [call_pnl put_pnl].
           split; apply cell_set_cell_neq; lia.
Qed.

End loops.

Section outer.
Variables (bs_model : BlackScholes) (strike cpp ppp : value).

(** The double loop. *)
Lemma outer_loop_run (spots : list value) (rows : nat) :
  Forall is_np spots ->
  forall (vols : list value) (i0 : nat) (s : heatmap_state),
    dims (call_pnl s) rows (length spots) -> dims (put_pnl s) rows (length spots) ->
    (i0 + length vols <= rows)%nat ->
    exists s',
      for_enumerate i0 vols
        (fun i vol => for_enumerate 0 spots (heatmap_cell bs_model strike cpp ppp i vol)) s
      = (Return tt, s')
      /\ dims (call_pnl s') rows (length spots) /\ dims (put_pnl s') rows (length spots)
      /\ engine_calls s'
         = rev (flat_map (fun vol => map (cell_model bs_model strike vol) spots) vols)
           ++ engine_calls s
      /\ forall i' j',
           ((i0 <= i' < i0 + length vols)%nat /\ (j' < length spots)%nat ->
            cell (call_pnl s') i' j'
            = call_cell bs_model strike cpp (nth (i' - i0) vols (lit 0)) (nth j' spots (lit 0))
            /\ cell (put_pnl s') i' j'
               = put_cell bs_model strike ppp (nth (i' - i0) vols (lit 0))
                   (nth j' spots (lit 0)))
           /\ (~ ((i0 <= i' < i0 + length vols)%nat /\ (j' < length spots)%nat) ->
               cell (call_pnl s') i' j' = cell (call_pnl s) i' j'
               /\ cell (put_pnl s') i' j' = cell (put_pnl s) i' j').
Proof.
  intros Hnp. induction vols as [| vol vols IH]; intros i0 s Hdc Hdp Hrows.
  - exists s. cbn [for_enumerate ret length flat_map rev app].
    split; [reflexivity |]. split; [exact Hdc |]. split; [exact Hdp |].
    split; [reflexivity |].
    intros i' j'. split; [intros [H _]; simpl in H; lia | intros _; split; reflexivity].
  - cbn [for_enumerate length] in *. unfold bind.
    destruct (inner_loop_run bs_model strike cpp ppp i0 vol rows (length spots)
                spots 0%nat s Hnp Hdc Hdp ltac:(lia) ltac:(lia))
      as (s1 & Hrun1 & Hdc1 & Hdp1 & Hlog1 & Hcells1).
    rewrite Hrun1.
    destruct (IH (S i0) s1 Hdc1 Hdp1 ltac:(lia))
      as (s' & Hrun & Hdc' & Hdp' & Hlog & Hcells).
    exists s'. split; [exact Hrun |]. split; [exact Hdc' |]. split; [exact Hdp' |].
    split.
    + rewrite Hlog, Hlog1. cbn [flat_map]. rewrite rev_app_distr, <- app_assoc.
      reflexivity.
    + intros i' j'. split.
      * intros [Hi' Hj'].
        destruct (Nat.eq_dec i' i0) as [-> | Hne].
        -- destruct (Hcells i0 j') as [_ Hout].
           destruct Hout as [H1 H2]; [lia |]. rewrite H1, H2.
           destruct (Hcells1 i0 j') as [Hin _].
           destruct Hin as [H3 H4]; [lia |]. rewrite H3, H4.
           rewrite Nat.sub_diag, Nat.sub_0_r. cbn [nth]. split; reflexivity.
        -- destruct (Hcells i' j') as [Hin _].
           destruct Hin as [H1 H2]; [lia |]. rewrite H1, H2.
           replace (i' - i0)%nat with (S (i' - S i0)) by lia.
           cbn [nth]. split; reflexivity.
      * intros Hout.
        destruct (Hcells i' j') as [_ Hout'].
        destruct Hout' as [H1 H2]; [lia |]. rewrite H1, H2.
        destruct (Hcells1 i' j') as [_ Hout1].
        apply Hout1. lia.
Qed.

End outer.

(** ** [numpy.linspace] *)

Lemma linspace_length (start stop : R) (num : nat) :
  length (linspace start stop num) = num.
Proof. unfold linspace. rewrite length_map, length_seq. reflexivity. Qed.

Lemma linspace_is_np (start stop : R) (num : nat) :
  Forall is_np (linspace start stop num).
Proof.
  unfold linspace. apply Forall_forall. intros v Hv.
  apply in_map_iff in Hv. destruct Hv as [i [<- _]]. reflexivity.
Qed.

Lemma linspace_nth (start stop : R) (num i : nat) (d : value) :
  (i < num)%nat ->
  nth i (linspace start stop num) d
  = Val NpFloat64 (Fin (start + INR i * ((stop - start) / INR (num - 1)))).
Proof.
  intros Hi. unfold linspace.
  rewrite (nth_indep _ d (Val NpFloat64 (Fin (start + INR 0 * ((stop - start)
                                                 / INR (num - 1))))))
    by (rewrite length_map, length_seq; exact Hi).
  rewrite (map_nth (fun i => Val NpFloat64 (Fin (start + INR i * ((stop - start)
                                                   / INR (num - 1)))))).
  rewrite seq_nth by exact Hi. reflexivity.
Qed.

(** The first and last samples are the endpoints. *)
Lemma linspace_endpoints (start stop : R) (n : nat) (d : value) :
  nth 0 (linspace start stop (S (S n))) d = Val NpFloat64 (Fin start)
  /\ nth (S n) (linspace start stop (S (S n))) d = Val NpFloat64 (Fin stop).
Proof.
  split; rewrite linspace_nth by lia; do 2 f_equal.
  - simpl INR at 1. ring.
  - replace (S (S n) - 1)%nat with (S n) by lia.
    field. apply not_0_INR. lia.
Qed.

(** ** [plot_pnl_heatmap] on ranges of [numpy.float64] spot prices *)

Lemma flat_map_length_const {A B : Type} (f : A -> list B) (n : nat) (l : list A) :
  (forall x, length (f x) = n) -> length (flat_map f l) = (length l * n)%nat.
Proof.
  intros Hf. induction l as [| x l IH]; [reflexivity |].
  cbn [flat_map length]. rewrite length_app, Hf, IH. lia.
Qed.

Lemma plot_pnl_heatmap_run
  (bs_model : BlackScholes) (spot_range vol_range : list value)
  (strike call_purchase_price put_purchase_price : value) :
  Forall is_np spot_range ->
  exists call_grid put_grid calls,
    plot_pnl_heatmap bs_model spot_range vol_range strike
      call_purchase_price put_purchase_price
    = (Return tt, mkHeatmap call_grid put_grid calls)
    /\ dims call_grid (length vol_range) (length spot_range)
    /\ dims put_grid (length vol_range) (length spot_range)
    /\ rev calls
       = flat_map (fun vol => map (cell_model bs_model strike vol) spot_range) vol_range
    /\ length calls = (length vol_range * length spot_range)%nat
    /\ forall i j, (i < length vol_range)%nat -> (j < length spot_range)%nat ->
         cell call_grid i j
         = call_cell bs_model strike call_purchase_price
             (nth i vol_range (lit 0)) (nth j spot_range (lit 0))
         /\ cell put_grid i j
            = put_cell bs_model strike put_purchase_price
                (nth i vol_range (lit 0)) (nth j spot_range (lit 0)).
Proof.
  intros Hnp. unfold plot_pnl_heatmap.
  destruct (outer_loop_run bs_model strike call_purchase_price put_purchase_price
              spot_range (length vol_range) Hnp vol_range 0%nat
              (mkHeatmap (zeros (length vol_range) (length spot_range))
                         (zeros (length vol_range) (length spot_range)) []))
    as (s' & Hrun & Hdc & Hdp & Hlog & Hcells).
  - apply dims_zeros.
  - apply dims_zeros.
  - lia.
  - destruct s' as [cg pg calls]. cbn [call_pnl put_pnl engine_calls] in *.
    rewrite app_nil_r in Hlog.
    exists cg, pg, calls. split; [exact Hrun |]. split; [exact Hdc |]. split; [exact Hdp |].
    split; [rewrite Hlog, rev_involutive; reflexivity |].
    split.
    + rewrite Hlog, length_rev.
      apply flat_map_length_const. intros vol. apply length_map.
    + intros i j Hi Hj.
      destruct (Hcells i j) as [Hin _].
      destruct Hin as [Hc Hp]; [lia |].
      rewrite Nat.sub_0_r in Hc, Hp. split; assumption.
Qed.

(** The heatmap section shows the arrays of two identical runs of
    [plot_pnl_heatmap]: 200 calls of [calculate_prices] for each
    rendering, one for each cell of each array shown. *)
Lemma heatmap_section_run
  (bs_model : BlackScholes) (spot_min spot_max vol_min vol_max : R)
  (strike call_purchase_price put_purchase_price : value) :
  exists call_grid put_grid calls,
    plot_pnl_heatmap bs_model (linspace spot_min spot_max 10)
      (linspace vol_min vol_max 10) strike call_purchase_price put_purchase_price
    = (Return tt, mkHeatmap call_grid put_grid calls)
    /\ heatmap_section bs_model spot_min spot_max vol_min vol_max strike
         call_purchase_price put_purchase_price
       = (call_grid, put_grid, calls ++ calls)
    /\ length (calls ++ calls) = 200%nat.
Proof.
  destruct (plot_pnl_heatmap_run bs_model (linspace spot_min spot_max 10)
              (linspace vol_min vol_max 10) strike
              call_purchase_price put_purchase_price (linspace_is_np _ _ _))
    as (cg & pg & calls & Hrun & _ & _ & _ & Hlen & _).
  exists cg, pg, calls. split; [exact Hrun |]. split.
  - unfold heatmap_section. rewrite Hrun. reflexivity.
  - rewrite length_app, Hlen, !linspace_length. reflexivity.
Qed.

(** * The claims *)

Lemma reference_model_valid : valid_inputs reference_model 1 100 100 0.2 0.05.
Proof. unfold valid_inputs, inputs. simpl. repeat split; lra. Defined.










(** C5: for the inputs [time_to_maturity = 1.0], [strike = 100.0],
    [current_price = 100.0], [volatility = 0.2], [interest_rate = 0.05],
    [calculate_prices] yields [call_price] 10.45 and [put_price] 5.57 to
    2 decimals, and [call_delta] 0.6368, [put_delta] -0.3632,
    [gamma] 0.0188 and [vega] 0.3752 to 4 decimals. *)
Theorem C5_reference_scenario :
  let stored a := results (snd (calculate_prices reference_model)) a in
  let float64 x := Some (Val NpFloat64 (Fin x)) in
  exists c p cd pd g v : R,
    fst (calculate_prices reference_model)
    = Return (Val NpFloat64 (Fin c), Val NpFloat64 (Fin p))
    /\ stored call_delta = float64 cd /\ stored put_delta = float64 pd
    /\ stored call_gamma = float64 g /\ stored vega = float64 v
    /\ approx c 10.45 2 /\ approx p 5.57 2
    /\ approx cd 0.6368 4 /\ approx pd (- 0.3632) 4
    /\ approx g 0.0188 4 /\ approx v 0.3752 4.
Proof.
  intros stored float64.
  destruct (calculate_prices_valid _ _ _ _ _ _ reference_model_valid)
    as [s (Hrun & _ & Hres)].
  unfold stored. rewrite Hrun. cbn [fst snd].
  exists (Spec.call_price 1 100 100 0.2 0.05), (Spec.put_price 1 100 100 0.2 0.05),
         (Spec.call_delta 1 100 100 0.2 0.05), (Spec.put_delta 1 100 100 0.2 0.05),
         (Spec.gamma 1 100 100 0.2 0.05), (Spec.vega 1 100 100 0.2 0.05).
  split; [reflexivity |].
  split; [apply (Hres call_delta) |]. split; [apply (Hres put_delta) |].
  split; [apply (Hres call_gamma) |]. split; [apply (Hres vega) |].
  assert (Hc := reference_call_price). assert (Hp := reference_put_price).
  assert (HP := Phi_035). assert (Hphi := phi_035).
  unfold approx, Spec.call_delta, Spec.put_delta, Spec.gamma, Spec.vega.
  rewrite reference_d1, sqrt_1. simpl pow.
  repeat split; apply Rabs_le; lra.
Qed.







(** C9: the heatmap construction builds two 10 x 10 arrays from the spot
    prices [spot_min + j (spot_max - spot_min) / 9] and the volatilities
    [vol_min + i (vol_max - vol_min) / 9], with strike, time to maturity and
    interest rate fixed; [calculate_prices] is invoked once for each cell
    (row by row, 100 calls), and the cell holds the engine price minus the
    purchase price when the purchase price is [> 0], else the engine price
    itself. *)
Theorem C9_heatmap_grids
  (bs_model : BlackScholes) (strike call_purchase_price put_purchase_price : value)
  (spot_min spot_max vol_min vol_max : R) :
  let spot_range := linspace spot_min spot_max 10 in
  let vol_range := linspace vol_min vol_max 10 in
  let bs_temp vol spot :=
    BlackScholes_init (time_to_maturity bs_model) strike spot vol
      (interest_rate bs_model) in
  exists call_grid put_grid calls,
    plot_pnl_heatmap bs_model spot_range vol_range strike
      call_purchase_price put_purchase_price
    = (Return tt, mkHeatmap call_grid put_grid calls)
    /\ dims call_grid 10 10 /\ dims put_grid 10 10
    /\ rev calls = flat_map (fun vol => map (bs_temp vol) spot_range) vol_range
    /\ length calls = 100%nat
    /\ forall i j, (i < 10)%nat -> (j < 10)%nat ->
         let vol := Val NpFloat64 (Fin (vol_min + INR i * ((vol_max - vol_min) / 9))) in
         let spot := Val NpFloat64 (Fin (spot_min + INR j * ((spot_max - spot_min) / 9))) in
         exists c p,
           fst (calculate_prices (bs_temp vol spot)) = Return (c, p)
           /\ cell call_grid i j
              = (if py_gt call_purchase_price (lit 0)
                 then fsub (num c) (num call_purchase_price) else num c)
           /\ cell put_grid i j
              = (if py_gt put_purchase_price (lit 0)
                 then fsub (num p) (num put_purchase_price) else num p).
Proof.
  intros spot_range vol_range bs_temp.
  assert (Hls : length spot_range = 10%nat) by apply linspace_length.
  assert (Hlv : length vol_range = 10%nat) by apply linspace_length.
  destruct (plot_pnl_heatmap_run bs_model spot_range vol_range strike
              call_purchase_price put_purchase_price (linspace_is_np _ _ _))
    as (cg & pg & calls & Hrun & Hdc & Hdp & Hlog & Hlen & Hcells).
  rewrite Hls, Hlv in *.
  exists cg, pg, calls. split; [exact Hrun |]. split; [exact Hdc |]. split; [exact Hdp |].
  split; [exact Hlog |]. split; [exact Hlen |].
  intros i j Hi Hj.
  set (vol := Val NpFloat64 (Fin (vol_min + INR i * ((vol_max - vol_min) / 9)))).
  set (spot := Val NpFloat64 (Fin (spot_min + INR j * ((spot_max - spot_min) / 9)))).
  destruct (Hcells i j Hi Hj) as [Hc Hp].
  unfold vol_range, spot_range in Hc, Hp.
  rewrite !linspace_nth in Hc, Hp by assumption.
  replace (INR (10 - 1)) with 9 in Hc, Hp by (simpl; lra).
  fold vol spot in Hc, Hp.
  destruct (calculate_prices_np (bs_temp vol spot) eq_refl)
    as (c & p & self' & Hcp & _ & _).
  exists c, p. split; [rewrite Hcp; reflexivity |].
  unfold call_cell, put_cell, cell_model in Hc, Hp.
  fold (bs_temp vol spot) in Hc, Hp. rewrite Hcp in Hc, Hp. cbn [fst] in Hc, Hp.
  rewrite Hc, Hp. unfold pnl.
  split.
  - destruct (py_gt call_purchase_price (lit 0)); reflexivity.
  - destruct (py_gt put_purchase_price (lit 0)); reflexivity.
Qed.


(** * Further properties *)

(** ** The prices as functions of each input *)

(** The derivative of a price of Black-Scholes shape along any
    parametrisation that keeps [S phi (d) = K phi (d - w)]. *)
Lemma bs_shape_derivable_pt_lim (Sf Kf df wf : R -> R) (x S' K' l1 lw : R) :
  derivable_pt_lim Sf x S' -> derivable_pt_lim Kf x K' ->
  derivable_pt_lim df x l1 -> derivable_pt_lim wf x lw ->
  Sf x * phi (df x) = Kf x * phi (df x - wf x) ->
  derivable_pt_lim (fun y => Sf y * Phi (df y) - Kf y * Phi (df y - wf y)) x
    (S' * Phi (df x) - K' * Phi (df x - wf x) + Sf x * phi (df x) * lw).
Proof.
  intros HS HK Hd Hw Hkey.
  apply (derivable_pt_lim_eq _ x
           ((S' * Phi (df x) + Sf x * (phi (df x) * l1))
            - (K' * Phi (df x - wf x) + Kf x * (phi (df x - wf x) * (l1 - lw))))).
  - apply (derivable_pt_lim_minus (fun y => Sf y * Phi (df y))
             (fun y => Kf y * Phi (df y - wf y))).
    + apply (derivable_pt_lim_mult Sf (fun y => Phi (df y))); [exact HS |].
      apply (derivable_pt_lim_comp df Phi); [exact Hd | apply Phi_derivable_pt_lim].
    + apply (derivable_pt_lim_mult Kf (fun y => Phi (df y - wf y))); [exact HK |].
      apply (derivable_pt_lim_comp (fun y => df y - wf y) Phi);
        [| apply Phi_derivable_pt_lim].
      apply (derivable_pt_lim_minus df wf); assumption.
  - replace (Kf x * (phi (df x - wf x) * (l1 - lw)))
      with ((Kf x * phi (df x - wf x)) * (l1 - lw)) by ring.
    rewrite <- Hkey. ring.
Qed.

Section partials.
Variables T K S sigma r : R.
Hypothesis T_pos : 0 < T.
Hypothesis K_pos : 0 < K.
Hypothesis S_pos : 0 < S.
Hypothesis sigma_pos : 0 < sigma.

Let sqrtT_pos : 0 < sqrt T := sqrt_lt_R0 T T_pos.

Lemma d1_derivable_volatility :
  exists l, derivable_pt_lim (fun s => Spec.d1 T K S s r) sigma l.
Proof.
  eexists. unfold Spec.d1.
  apply (derivable_pt_lim_div
           (fun s => ln (S / K) + (r + 0.5 * s ^ 2) * T) (fun s => s * sqrt T)).
  - apply (derivable_pt_lim_plus (fun _ => ln (S / K)) (fun s => (r + 0.5 * s ^ 2) * T)).
    + apply derivable_pt_lim_const.
    + apply (derivable_pt_lim_scal_right (fun s => r + 0.5 * s ^ 2)).
      apply (derivable_pt_lim_plus (fun _ => r) (fun s => 0.5 * s ^ 2)).
      * apply derivable_pt_lim_const.
      * apply (derivable_pt_lim_scal (fun s => s ^ 2)). apply derivable_pt_lim_pow.
  - apply (derivable_pt_lim_scal_right id). apply derivable_pt_lim_id.
  - apply Rgt_not_eq. apply Rmult_lt_0_compat; assumption.
Qed.

Lemma d1_derivable_rate :
  exists l, derivable_pt_lim (fun x => Spec.d1 T K S sigma x) r l.
Proof.
  eexists. unfold Spec.d1.
  apply (derivable_pt_lim_scal_right
           (fun x => ln (S / K) + (x + 0.5 * sigma ^ 2) * T)).
  apply (derivable_pt_lim_plus (fun _ => ln (S / K))
           (fun x => (x + 0.5 * sigma ^ 2) * T)).
  - apply derivable_pt_lim_const.
  - apply (derivable_pt_lim_scal_right (fun x => x + 0.5 * sigma ^ 2)).
    apply (derivable_pt_lim_plus id (fun _ => 0.5 * sigma ^ 2)).
    + apply derivable_pt_lim_id.
    + apply derivable_pt_lim_const.
Qed.

Lemma d1_derivable_maturity :
  exists l, derivable_pt_lim (fun t => Spec.d1 t K S sigma r) T l.
Proof.
  eexists. unfold Spec.d1.
  apply (derivable_pt_lim_div
           (fun t => ln (S / K) + (r + 0.5 * sigma ^ 2) * t) (fun t => sigma * sqrt t)).
  - apply (derivable_pt_lim_plus (fun _ => ln (S / K))
             (fun t => (r + 0.5 * sigma ^ 2) * t)).
    + apply derivable_pt_lim_const.
    + apply (derivable_pt_lim_scal id). apply derivable_pt_lim_id.
  - apply (derivable_pt_lim_scal sqrt). apply derivable_pt_lim_sqrt, T_pos.
  - apply Rgt_not_eq. apply Rmult_lt_0_compat; assumption.
Qed.


Lemma discount_derivable_rate :
  derivable_pt_lim (fun x => K * exp (- x * T)) r (- T * (K * exp (- r * T))).
Proof.
  replace (- T * (K * exp (- r * T))) with (K * (exp (- r * T) * (- 1 * T))) by ring.
  apply (derivable_pt_lim_scal (fun x => exp (- x * T))).
  apply (derivable_pt_lim_comp (fun x => - x * T) exp).
  - apply (derivable_pt_lim_scal_right (fun x => - x)).
    replace (- 1) with (- (1)) by ring.
    apply (derivable_pt_lim_opp id). apply derivable_pt_lim_id.
  - apply derivable_pt_lim_exp.
Qed.

Lemma discount_derivable_maturity :
  derivable_pt_lim (fun t => K * exp (- r * t)) T (- r * (K * exp (- r * T))).
Proof.
  replace (- r * (K * exp (- r * T))) with (K * (exp (- r * T) * (- r * 1))) by ring.
  apply (derivable_pt_lim_scal (fun t => exp (- r * t))).
  apply (derivable_pt_lim_comp (fun t => - r * t) exp).
  - apply (derivable_pt_lim_scal id). apply derivable_pt_lim_id.
  - apply derivable_pt_lim_exp.
Qed.


(** Vega: the derivative of the call price in the volatility. *)
Lemma call_price_derivable_volatility :
  derivable_pt_lim (fun s => Spec.call_price T K S s r) sigma
    (S * sqrt T * phi (Spec.d1 T K S sigma r)).
Proof.
  destruct d1_derivable_volatility as [l1 Hd1].
  apply (derivable_pt_lim_eq _ sigma
           (0 * Phi (Spec.d1 T K S sigma r)
            - 0 * Phi (Spec.d1 T K S sigma r - sigma * sqrt T)
            + S * phi (Spec.d1 T K S sigma r) * (1 * sqrt T))); [| ring].
  apply (bs_shape_derivable_pt_lim (fun _ => S) (fun _ => K * exp (- r * T))
           (fun s => Spec.d1 T K S s r) (fun s => s * sqrt T) sigma 0 0 l1).
  - apply derivable_pt_lim_const.
  - apply derivable_pt_lim_const.
  - exact Hd1.
  - apply (derivable_pt_lim_scal_right id). apply derivable_pt_lim_id.
  - apply (phi_d1_d2 T K sigma r T_pos K_pos sigma_pos S S_pos).
Qed.

(** Rho: the derivative of the call price in the interest rate. *)
Lemma call_price_derivable_rate :
  derivable_pt_lim (fun x => Spec.call_price T K S sigma x) r
    (K * T * exp (- r * T) * Phi (Spec.d2 T K S sigma r)).
Proof.
  destruct d1_derivable_rate as [l1 Hd1].
  apply (derivable_pt_lim_eq _ r
           (0 * Phi (Spec.d1 T K S sigma r)
            - (- T * (K * exp (- r * T))) * Phi (Spec.d1 T K S sigma r - sigma * sqrt T)
            + S * phi (Spec.d1 T K S sigma r) * 0));
    [| unfold Spec.d2; ring].
  apply (bs_shape_derivable_pt_lim (fun _ => S) (fun x => K * exp (- x * T))
           (fun x => Spec.d1 T K S sigma x) (fun _ => sigma * sqrt T) r 0
           (- T * (K * exp (- r * T))) l1 0).
  - apply derivable_pt_lim_const.
  - apply discount_derivable_rate.
  - exact Hd1.
  - apply derivable_pt_lim_const.
  - apply (phi_d1_d2 T K sigma r T_pos K_pos sigma_pos S S_pos).
Qed.

(** Theta: the derivative of the call price in the time to maturity. *)
Lemma call_price_derivable_maturity :
  derivable_pt_lim (fun t => Spec.call_price t K S sigma r) T
    (S * phi (Spec.d1 T K S sigma r) * sigma / (2 * sqrt T)
     + r * K * exp (- r * T) * Phi (Spec.d2 T K S sigma r)).
Proof.
  destruct d1_derivable_maturity as [l1 Hd1].
  apply (derivable_pt_lim_eq _ T
           (0 * Phi (Spec.d1 T K S sigma r)
            - (- r * (K * exp (- r * T))) * Phi (Spec.d1 T K S sigma r - sigma * sqrt T)
            + S * phi (Spec.d1 T K S sigma r) * (sigma * / (2 * sqrt T))));
    [| unfold Spec.d2; field; lra].
  apply (bs_shape_derivable_pt_lim (fun _ => S) (fun t => K * exp (- r * t))
           (fun t => Spec.d1 t K S sigma r) (fun t => sigma * sqrt t) T 0
           (- r * (K * exp (- r * T))) l1).
  - apply derivable_pt_lim_const.
  - apply discount_derivable_maturity.
  - exact Hd1.
  - apply (derivable_pt_lim_scal sqrt). apply derivable_pt_lim_sqrt, T_pos.
  - apply (phi_d1_d2 T K sigma r T_pos K_pos sigma_pos S S_pos).
Qed.


(** Gamma: the derivative of the call delta in the spot price. *)
Lemma call_delta_derivable_spot :
  derivable_pt_lim (fun s => Spec.call_delta T K s sigma r) S
    (Spec.gamma T K S sigma r).
Proof.
  unfold Spec.call_delta, Spec.gamma.
  replace (phi (Spec.d1 T K S sigma r) / (S * sigma * sqrt T))
    with (phi (Spec.d1 T K S sigma r) * (/ S / (sigma * sqrt T)))
    by (field; repeat split; lra).
  apply (derivable_pt_lim_comp (fun s => Spec.d1 T K s sigma r) Phi).
  - apply (d1_derivable_pt_lim T K sigma r); assumption.
  - apply Phi_derivable_pt_lim.
Qed.

End partials.

(** The put price from the call price (put-call parity). *)
Lemma put_price_from_call (T K S sigma r : R) :
  Spec.put_price T K S sigma r
  = Spec.call_price T K S sigma r - (S - K * exp (- r * T)).
Proof. generalize (put_call_parity T K S sigma r). lra. Qed.

(** The derivative of a put price from the one of the call price. *)
Lemma put_derivable_from_call (call put parity : R -> R) (x l m : R) :
  (forall y, put y = call y - parity y) ->
  derivable_pt_lim call x l -> derivable_pt_lim parity x m ->
  derivable_pt_lim put x (l - m).
Proof.
  intros Heq Hc Hp.
  apply (derivable_pt_lim_ext (fun y => call y - parity y)).
  - intros y. symmetry. apply Heq.
  - apply (derivable_pt_lim_minus call parity); assumption.
Qed.

Section put_partials.
Variables T K S sigma r : R.
Hypothesis T_pos : 0 < T.
Hypothesis K_pos : 0 < K.
Hypothesis S_pos : 0 < S.
Hypothesis sigma_pos : 0 < sigma.

Lemma put_price_derivable_spot :
  derivable_pt_lim (fun s => Spec.put_price T K s sigma r) S
    (Spec.put_delta T K S sigma r).
Proof.
  unfold Spec.put_delta.
  apply (put_derivable_from_call (fun s => Spec.call_price T K s sigma r) _
           (fun s => s - K * exp (- r * T))).
  - intros y. apply put_price_from_call.
  - apply call_price_derivable_pt_lim; assumption.
  - apply (derivable_pt_lim_eq _ S (1 - 0)); [| ring].
    apply (derivable_pt_lim_minus id (fun _ => K * exp (- r * T)));
      [apply derivable_pt_lim_id | apply derivable_pt_lim_const].
Qed.

Lemma put_price_derivable_volatility :
  derivable_pt_lim (fun s => Spec.put_price T K S s r) sigma
    (S * sqrt T * phi (Spec.d1 T K S sigma r)).
Proof.
  apply (derivable_pt_lim_eq _ sigma (S * sqrt T * phi (Spec.d1 T K S sigma r) - 0));
    [| ring].
  apply (put_derivable_from_call (fun s => Spec.call_price T K S s r) _
           (fun _ => S - K * exp (- r * T))).
  - intros y. apply put_price_from_call.
  - apply call_price_derivable_volatility; assumption.
  - apply derivable_pt_lim_const.
Qed.

Lemma put_price_derivable_rate :
  derivable_pt_lim (fun x => Spec.put_price T K S sigma x) r
    (- K * T * exp (- r * T) * Phi (- Spec.d2 T K S sigma r)).
Proof.
  apply (derivable_pt_lim_eq _ r
           (K * T * exp (- r * T) * Phi (Spec.d2 T K S sigma r)
            - (0 - (- T * (K * exp (- r * T)))))); [| rewrite Phi_opp; ring].
  apply (put_derivable_from_call (fun x => Spec.call_price T K S sigma x) _
           (fun x => S - K * exp (- x * T))).
  - intros y. apply put_price_from_call.
  - apply call_price_derivable_rate; assumption.
  - apply (derivable_pt_lim_minus (fun _ => S) (fun x => K * exp (- x * T)));
      [apply derivable_pt_lim_const | apply discount_derivable_rate].
Qed.

Lemma put_price_derivable_maturity :
  derivable_pt_lim (fun t => Spec.put_price t K S sigma r) T
    (S * phi (Spec.d1 T K S sigma r) * sigma / (2 * sqrt T)
     - r * K * exp (- r * T) * Phi (- Spec.d2 T K S sigma r)).
Proof.
  apply (derivable_pt_lim_eq _ T
           (S * phi (Spec.d1 T K S sigma r) * sigma / (2 * sqrt T)
            + r * K * exp (- r * T) * Phi (Spec.d2 T K S sigma r)
            - (0 - (- r * (K * exp (- r * T)))))); [| rewrite Phi_opp; ring].
  apply (put_derivable_from_call (fun t => Spec.call_price t K S sigma r) _
           (fun t => S - K * exp (- r * t))).
  - intros y. apply put_price_from_call.
  - apply call_price_derivable_maturity; assumption.
  - apply (derivable_pt_lim_minus (fun _ => S) (fun t => K * exp (- r * t)));
      [apply derivable_pt_lim_const | apply discount_derivable_maturity].
Qed.


Lemma put_delta_derivable_spot :
  derivable_pt_lim (fun s => Spec.put_delta T K s sigma r) S
    (Spec.gamma T K S sigma r).
Proof.
  unfold Spec.put_delta.
  apply (derivable_pt_lim_eq _ S (Spec.gamma T K S sigma r - 0)); [| ring].
  apply (derivable_pt_lim_minus (fun s => Phi (Spec.d1 T K s sigma r)) (fun _ => 1)).
  - apply (call_delta_derivable_spot T K S sigma r); assumption.
  - apply derivable_pt_lim_const.
Qed.

End put_partials.

(** ** Bounds on the prices *)


Section call_positive.
Variables T K sigma r : R.
Hypothesis T_pos : 0 < T.
Hypothesis K_pos : 0 < K.
Hypothesis sigma_pos : 0 < sigma.



End call_positive.


(** ** The prices are monotone in the volatility and the spot price *)




(** ** The stored results as functions of the inputs *)

Lemma model_of_valid (T K S sigma r : R) :
  0 < T -> 0 < K -> 0 < S -> 0 < sigma ->
  valid_inputs (model_of T K S sigma r) T K S sigma r.
Proof. intros. unfold valid_inputs, inputs. simpl. repeat split; assumption. Qed.

Lemma stored_valid (a : attr) (T K S sigma r : R) :
  0 < T -> 0 < K -> 0 < S -> 0 < sigma ->
  stored a T K S sigma r = spec_attr T K S sigma r a.
Proof.
  intros HT HK HS Hs.
  destruct (calculate_prices_valid _ _ _ _ _ _ (model_of_valid T K S sigma r HT HK HS Hs))
    as [self' (Hrun & _ & Hres)].
  unfold stored, stored_in. rewrite Hrun. cbn [snd]. rewrite Hres. reflexivity.
Qed.

(** A derivative of a formula is a derivative of the stored result when
    the two agree on positive values of the varying input. *)
Lemma stored_derivable (f g : R -> R) (x l : R) :
  0 < x -> (forall y, 0 < y -> g y = f y) ->
  derivable_pt_lim f x l -> derivable_pt_lim g x l.
Proof.
  intros Hx Heq Hf.
  apply (derivable_pt_lim_locally_ext f g x (x / 2) (x + 1)); [lra | | exact Hf].
  intros y Hy. symmetry. apply Heq. lra.
Qed.

(** X1: the stored deltas are the derivatives of the stored prices in
    [current_price]. *)
Theorem X1_delta_is_price_sensitivity (T K S sigma r : R) :
  0 < T -> 0 < K -> 0 < S -> 0 < sigma ->
  derivable_pt_lim (fun s => stored call_price T K s sigma r) S
    (stored call_delta T K S sigma r)
  /\ derivable_pt_lim (fun s => stored put_price T K s sigma r) S
       (stored put_delta T K S sigma r).
Proof.
  intros T_pos K_pos S_pos sigma_pos.
  rewrite !stored_valid by assumption. cbn [spec_attr]. split.
  - apply (stored_derivable (fun s => Spec.call_price T K s sigma r)); [exact S_pos | |].
    + intros y Hy. apply stored_valid; assumption.
    + apply call_price_derivable_pt_lim; assumption.
  - apply (stored_derivable (fun s => Spec.put_price T K s sigma r)); [exact S_pos | |].
    + intros y Hy. apply stored_valid; assumption.
    + apply put_price_derivable_spot; assumption.
Qed.

(** X2: the stored gamma (one value for call and put) is the derivative
    of each stored delta in [current_price]. *)
Theorem X2_gamma_is_delta_sensitivity (T K S sigma r : R) :
  0 < T -> 0 < K -> 0 < S -> 0 < sigma ->
  stored put_gamma T K S sigma r = stored call_gamma T K S sigma r
  /\ derivable_pt_lim (fun s => stored call_delta T K s sigma r) S
       (stored call_gamma T K S sigma r)
  /\ derivable_pt_lim (fun s => stored put_delta T K s sigma r) S
       (stored call_gamma T K S sigma r).
Proof.
  intros T_pos K_pos S_pos sigma_pos.
  rewrite !stored_valid by assumption. cbn [spec_attr].
  split; [reflexivity |]. split.
  - apply (stored_derivable (fun s => Spec.call_delta T K s sigma r)); [exact S_pos | |].
    + intros y Hy. apply stored_valid; assumption.
    + apply call_delta_derivable_spot; assumption.
  - apply (stored_derivable (fun s => Spec.put_delta T K s sigma r)); [exact S_pos | |].
    + intros y Hy. apply stored_valid; assumption.
    + apply put_delta_derivable_spot; assumption.
Qed.

(** X3: 100 times the stored vega is the derivative of each stored price
    in [volatility]. *)
Theorem X3_vega_is_volatility_sensitivity (T K S sigma r : R) :
  0 < T -> 0 < K -> 0 < S -> 0 < sigma ->
  derivable_pt_lim (fun s => stored call_price T K S s r) sigma
    (100 * stored vega T K S sigma r)
  /\ derivable_pt_lim (fun s => stored put_price T K S s r) sigma
       (100 * stored vega T K S sigma r).
Proof.
  intros T_pos K_pos S_pos sigma_pos.
  rewrite !stored_valid by assumption. cbn [spec_attr].
  replace (100 * Spec.vega T K S sigma r)
    with (S * sqrt T * phi (Spec.d1 T K S sigma r)) by (unfold Spec.vega; field).
  split.
  - apply (stored_derivable (fun s => Spec.call_price T K S s r)); [exact sigma_pos | |].
    + intros y Hy. apply stored_valid; assumption.
    + apply call_price_derivable_volatility; assumption.
  - apply (stored_derivable (fun s => Spec.put_price T K S s r)); [exact sigma_pos | |].
    + intros y Hy. apply stored_valid; assumption.
    + apply put_price_derivable_volatility; assumption.
Qed.

(** X4: 100 times the stored rho of the call (of the put) is the
    derivative of the stored call (put) price in [interest_rate]. *)
Theorem X4_rho_is_rate_sensitivity (T K S sigma r : R) :
  0 < T -> 0 < K -> 0 < S -> 0 < sigma ->
  derivable_pt_lim (fun x => stored call_price T K S sigma x) r
    (100 * stored call_rho T K S sigma r)
  /\ derivable_pt_lim (fun x => stored put_price T K S sigma x) r
       (100 * stored put_rho T K S sigma r).
Proof.
  intros T_pos K_pos S_pos sigma_pos.
  rewrite !stored_valid by assumption. cbn [spec_attr].
  split.
  - apply (derivable_pt_lim_ext (fun x => Spec.call_price T K S sigma x)).
    + intros x. symmetry. apply stored_valid; assumption.
    + apply (derivable_pt_lim_eq _ r
               (K * T * exp (- r * T) * Phi (Spec.d2 T K S sigma r)));
        [apply call_price_derivable_rate; assumption | unfold Spec.call_rho; field].
  - apply (derivable_pt_lim_ext (fun x => Spec.put_price T K S sigma x)).
    + intros x. symmetry. apply stored_valid; assumption.
    + apply (derivable_pt_lim_eq _ r
               (- K * T * exp (- r * T) * Phi (- Spec.d2 T K S sigma r)));
        [apply put_price_derivable_rate; assumption | unfold Spec.put_rho; field].
Qed.

(** X5: 365 times the stored theta of the call (of the put) is minus the
    derivative of the stored call (put) price in [time_to_maturity]: the
    change of the price per day as the maturity comes closer. *)
Theorem X5_theta_is_time_decay (T K S sigma r : R) :
  0 < T -> 0 < K -> 0 < S -> 0 < sigma ->
  derivable_pt_lim (fun t => stored call_price t K S sigma r) T
    (- (365 * stored call_theta T K S sigma r))
  /\ derivable_pt_lim (fun t => stored put_price t K S sigma r) T
       (- (365 * stored put_theta T K S sigma r)).
Proof.
  intros T_pos K_pos S_pos sigma_pos.
  assert (Hsq : 0 < sqrt T) by (apply sqrt_lt_R0; exact T_pos).
  rewrite !stored_valid by assumption. cbn [spec_attr].
  split.
  - apply (stored_derivable (fun t => Spec.call_price t K S sigma r)); [exact T_pos | |].
    + intros y Hy. apply stored_valid; assumption.
    + apply (derivable_pt_lim_eq _ T
               (S * phi (Spec.d1 T K S sigma r) * sigma / (2 * sqrt T)
                + r * K * exp (- r * T) * Phi (Spec.d2 T K S sigma r)));
        [apply call_price_derivable_maturity; assumption
        | unfold Spec.call_theta; field; lra].
  - apply (stored_derivable (fun t => Spec.put_price t K S sigma r)); [exact T_pos | |].
    + intros y Hy. apply stored_valid; assumption.
    + apply (derivable_pt_lim_eq _ T
               (S * phi (Spec.d1 T K S sigma r) * sigma / (2 * sqrt T)
                - r * K * exp (- r * T) * Phi (- Spec.d2 T K S sigma r)));
        [apply put_price_derivable_maturity; assumption
        | unfold Spec.put_theta; field; lra].
Qed.

Lemma X1_witness :
  (0 < 1 /\ 0 < 100 /\ 0 < 100 /\ 0 < 0.2) /\
  (derivable_pt_lim (fun s => stored call_price 1 100 s 0.2 0.05) 100
     (stored call_delta 1 100 100 0.2 0.05)
   /\ derivable_pt_lim (fun s => stored put_price 1 100 s 0.2 0.05) 100
        (stored put_delta 1 100 100 0.2 0.05)).
Proof.
  split; [repeat split; lra |].
  apply (X1_delta_is_price_sensitivity 1 100 100 0.2 0.05); lra.
Defined.

Lemma X2_witness :
  (0 < 1 /\ 0 < 100 /\ 0 < 100 /\ 0 < 0.2) /\
  (stored put_gamma 1 100 100 0.2 0.05 = stored call_gamma 1 100 100 0.2 0.05
   /\ derivable_pt_lim (fun s => stored call_delta 1 100 s 0.2 0.05) 100
        (stored call_gamma 1 100 100 0.2 0.05)
   /\ derivable_pt_lim (fun s => stored put_delta 1 100 s 0.2 0.05) 100
        (stored call_gamma 1 100 100 0.2 0.05)).
Proof.
  split; [repeat split; lra |].
  apply (X2_gamma_is_delta_sensitivity 1 100 100 0.2 0.05); lra.
Defined.

Lemma X3_witness :
  (0 < 1 /\ 0 < 100 /\ 0 < 100 /\ 0 < 0.2) /\
  (derivable_pt_lim (fun s => stored call_price 1 100 100 s 0.05) 0.2
     (100 * stored vega 1 100 100 0.2 0.05)
   /\ derivable_pt_lim (fun s => stored put_price 1 100 100 s 0.05) 0.2
        (100 * stored vega 1 100 100 0.2 0.05)).
Proof.
  split; [repeat split; lra |].
  apply (X3_vega_is_volatility_sensitivity 1 100 100 0.2 0.05); lra.
Defined.

Lemma X4_witness :
  (0 < 1 /\ 0 < 100 /\ 0 < 100 /\ 0 < 0.2) /\
  (derivable_pt_lim (fun x => stored call_price 1 100 100 0.2 x) 0.05
     (100 * stored call_rho 1 100 100 0.2 0.05)
   /\ derivable_pt_lim (fun x => stored put_price 1 100 100 0.2 x) 0.05
        (100 * stored put_rho 1 100 100 0.2 0.05)).
Proof.
  split; [repeat split; lra |].
  apply (X4_rho_is_rate_sensitivity 1 100 100 0.2 0.05); lra.
Defined.

Lemma X5_witness :
  (0 < 1 /\ 0 < 100 /\ 0 < 100 /\ 0 < 0.2) /\
  (derivable_pt_lim (fun t => stored call_price t 100 100 0.2 0.05) 1
     (- (365 * stored call_theta 1 100 100 0.2 0.05))
   /\ derivable_pt_lim (fun t => stored put_price t 100 100 0.2 0.05) 1
        (- (365 * stored put_theta 1 100 100 0.2 0.05))).
Proof.
  split; [repeat split; lra |].
  apply (X5_theta_is_time_decay 1 100 100 0.2 0.05); lra.
Defined.













Lemma calculate_prices_assigned
  (T K S sigma r q : value) (res : attr -> option value) :
  py_truediv S K = Return q ->
  exists res',
    calculate_prices (mkBlackScholes T K S sigma r res)
    = (Return (assigned T K S sigma r q call_price, assigned T K S sigma r q put_price),
       mkBlackScholes T K S sigma r res')
    /\ forall a, res' a = Some (assigned T K S sigma r q a).
Proof.
  intros Hq.
  rewrite (calculate_prices_run (mkBlackScholes T K S sigma r res) q Hq).
  eexists. split; [reflexivity |].
  intros a. destruct a; reflexivity.
Qed.

(** ** Attributes before and after the call *)




(** X13: with a zero strike and a plain Python float as current price,
    [calculate_prices] raises [ZeroDivisionError] (from
    [current_price / strike]) and leaves the instance as it was. *)
Theorem X13_zero_strike_raises
  (T sigma r : value) (S : pyfloat) (earlier : attr -> option value) :
  let self := mkBlackScholes T (lit 0) (Val PyFloat S) sigma r earlier in
  calculate_prices self = (Raise ZeroDivisionError, self).
Proof.
  intros self. apply calculate_prices_raise.
  unfold py_truediv. cbn [current_price strike self kind num lit promote is_zero].
  destruct (Req_EM_T 0 0) as [_ | H]; [reflexivity | contradiction].
Qed.



(** X15: a second call of [calculate_prices] on the same instance returns
    what the first one did and stores the same values: the results depend
    on the five inputs only, not on attributes assigned earlier. *)
Theorem X15_second_call_same (self : BlackScholes) :
  let once := snd (calculate_prices self) in
  let twice := snd (calculate_prices once) in
  fst (calculate_prices once) = fst (calculate_prices self)
  /\ forall a, results twice a = results once a.
Proof.
  intros once twice. unfold twice, once. clear once twice.
  destruct self as [T K S sigma r res].
  destruct (py_truediv_cases S K) as [(Hraise & _) | Hret].
  - rewrite (calculate_prices_raise (mkBlackScholes T K S sigma r res) _ Hraise).
    cbn [snd].
    rewrite (calculate_prices_raise (mkBlackScholes T K S sigma r res) _ Hraise).
    split; reflexivity.
  - destruct (calculate_prices_assigned T K S sigma r _ res Hret) as (res1 & E1 & H1).
    rewrite E1. cbn [fst snd].
    destruct (calculate_prices_assigned T K S sigma r _ res1 Hret) as (res2 & E2 & H2).
    rewrite E2. cbn [fst snd results].
    split; [reflexivity |].
    intros a. rewrite H1, H2. reflexivity.
Qed.

(** ** Special values *)

Lemma fadd_nan_r (x : pyfloat) : fadd x NaN = NaN.
Proof. destruct x; reflexivity. Qed.



Lemma fsub_nan_r (x : pyfloat) : fsub x NaN = NaN.
Proof. unfold fsub. apply fadd_nan_r. Qed.







(** ** The heatmap on the inputs the dashboard admits *)









(** ** The dashboard script *)


